(** * Backurne: a shallow embedding of [backurne.py] and its properties

    The development follows the source file top to bottom: Python values
    and exceptions, the shared world the processes act on, the snapshot
    expiry rule, the producer and the consumers, both expiration passes,
    the freshness check and the results store. *)

From Stdlib Require Import ZArith Lia Ascii.
From stdpp Require Import base tactics option list sorting strings gmap.

Open Scope Z_scope.

(** ** Python values *)

(** The exceptions the program meets. [Timeout] is [filelock.Timeout];
    [Failure] stands for any other exception a driver, the HTTP client or
    a library raises. All of them derive from [Exception]. *)
Inductive exn :=
  | Timeout
  | IndexError
  | KeyError
  | TypeError
  | ValueError
  | OverflowError
  | Failure (what : string).

#[global] Instance exn_eq_dec : EqDecision exn.
Proof. solve_decision. Defined.

(** The outcome of a call: a value or a raised exception. *)
Inductive res (A : Type) :=
  | Ok (a : A)
  | Raise (e : exn).
Arguments Ok {A} a.
Arguments Raise {A} e.

Definition is_timeout (e : exn) : bool :=
  match e with Timeout => true | _ => false end.

Definition is_index_error (e : exn) : bool :=
  match e with IndexError => true | _ => false end.

(** [l[i]] with Python's negative indices. *)
Definition py_index {A} (l : list A) (i : Z) : res A :=
  let n := Z.of_nat (length l) in
  let j := if i <? 0 then i + n else i in
  if (j <? 0) || (n <=? j) then Raise IndexError
  else match l !! Z.to_nat j with
       | Some x => Ok x
       | None => Raise IndexError
       end.

(** [s.split(sep)] for a one-character separator. *)
Fixpoint split (sep : ascii) (s : string) : list string :=
  match s with
  | EmptyString => [EmptyString]
  | String c s' =>
      if decide (c = sep) then EmptyString :: split sep s'
      else match split sep s' with
           | [] => [String c EmptyString]
           | w :: ws => String c w :: ws
           end
  end.

Definition semicolon : ascii := ";"%char.
Definition slash : ascii := "/"%char.

(** [s.replace(c, '')] for a one-character pattern. *)
Fixpoint remove_char (c : ascii) (s : string) : string :=
  match s with
  | EmptyString => EmptyString
  | String a s' =>
      if decide (a = c) then remove_char c s' else String a (remove_char c s')
  end.

(** [list.pop()]: the last element and the shortened list. *)
Definition pop {A} (l : list A) : res (A * list A) :=
  match last l with
  | Some x => Ok (x, removelast l)
  | None => Raise IndexError
  end.

(** [sorted(l)] on strings. *)
Definition sorted (l : list string) : list string := merge_sort String.le l.

(** A dict with string keys in insertion order. *)
Definition dict (V : Type) := list (string * V).

Fixpoint dict_get {V} (d : dict V) (k : string) : option V :=
  match d with
  | [] => None
  | (k', v) :: d' => if decide (k' = k) then Some v else dict_get d' k
  end.

(** [d[k].append(x)], with [d[k] = list()] first when [k] is new. *)
Fixpoint dict_append {V} (d : dict (list V)) (k : string) (x : V) : dict (list V) :=
  match d with
  | [] => [(k, [x])]
  | (k', l) :: d' =>
      if decide (k' = k) then (k', l ++ [x]) :: d' else (k', l) :: dict_append d' k x
  end.

(** [range(0, n)]. *)
Definition range (n : Z) : list Z := Z.of_nat <$> seq 0 (Z.to_nat n).

(** ** Dates *)

Module Time.

(** A [datetime] counts microseconds from 0001-01-01T00:00:00; it
    carries a UTC offset when it is timezone-aware. A [timedelta] is a
    number of microseconds. *)
Record datetime := Datetime { us : Z; tzinfo : option Z }.

Definition naive (t : Z) : datetime := Datetime t None.

Definition day : Z := 86400000000.
Definition hour : Z := 3600000000.

(** [datetime.max] is 9999-12-31T23:59:59.999999. *)
Definition max_us : Z := 3652059 * day - 1.

Definition datetime_ok (t : Z) : bool := (0 <=? t) && (t <=? max_us).

(** A timedelta holds between -999999999 and 999999999 whole days. *)
Definition timedelta_ok (d : Z) : bool :=
  (-999999999 * day <=? d) && (d <? 1000000000 * day).

Definition timedelta (d : Z) : res Z :=
  if timedelta_ok d then Ok d else Raise OverflowError.

Definition timedelta_days (n : Z) : res Z := timedelta (n * day).
Definition timedelta_hours (n : Z) : res Z := timedelta (n * hour).

(** [d + delta] and [d - delta]. *)
Definition add (d : datetime) (delta : Z) : res datetime :=
  if datetime_ok (us d + delta) then Ok (Datetime (us d + delta) (tzinfo d))
  else Raise OverflowError.

Definition sub (d : datetime) (delta : Z) : res datetime := add d (- delta).

(** [a < b]: comparing a naive with an aware datetime is a [TypeError]. *)
Definition lt (a b : datetime) : res bool :=
  match tzinfo a, tzinfo b with
  | None, None => Ok (us a <? us b)
  | Some oa, Some ob => Ok (us a - oa <? us b - ob)
  | _, _ => Raise TypeError
  end.

Definition gt (a b : datetime) : res bool := lt b a.

End Time.

Import Time.

(** ** Configuration *)

(** One entry of [config['profiles']]; both keys may be missing. *)
Record profile := Profile {
  count : option Z;
  max_on_live : option Z;
}.

(** One entry of [config['live_clusters']]. *)
Record Cluster := {
  cluster_type : string;
  cluster_name : string;
  use_smbios : bool;
}.

Record Config := {
  live_clusters : list Cluster;
  profiles : dict profile;
  extra_retention_time : Z;
  live_worker : Z;
  backup_worker : Z;
  uuid_fallback : bool;
  lockdir : string;
}.

(** ** The world *)

Inductive level := Debug | Info | Warning | Error.

(** A log record: a plain message, or an exception with the text that
    goes with it. *)
Inductive log_entry :=
  | LogMsg (l : level) (text : string)
  | LogExn (l : level) (e : exn) (text : string).

Inductive status_msg := add_item | done_item.

#[global] Instance status_msg_eq_dec : EqDecision status_msg.
Proof. solve_decision. Defined.

(** The backup object of one image ([Bck]): the cluster name, the live
    image and the destination image on the backup cluster. *)
Record Bck := { bck_name : string; bck_rbd : string; bck_dest : string }.

(** An entry of a [todo] list. *)
Record job := Job {
  dest : string;
  last_snap : option string;
  snap_name : string;
  job_backup : Bck;
}.

(** A virtual machine as [Proxmox.vms()] lists it. *)
Record disk := { rbd : string; ceph : string; adapter : string }.
Record VM := {
  vmid : Z;
  vm_name : string;
  smbios : option string;
  node : string;
  to_backup : list (disk * Bck);
}.

Inductive px_call := Freeze (vm : VM) | Thaw (vm : VM).

(** A row of the [results] table: [date] holds the text of a number of
    seconds, [cluster], [disk] and [msg] are strings. *)
Record row := Row { date : Z; row_cluster : string; row_disk : string; row_msg : string }.

(** What the processes share: the job queue ([None] is the end marker),
    the status queue, the log, the calls made to the hypervisor, the
    snapshots of the live and of the backup cluster (per image, in the
    order [snap] lists them), the results table and the clock. *)
Record world := World {
  queue : list (option (list job));
  status_queue : list status_msg;
  log : list log_entry;
  px : list px_call;
  live : gmap string (list string);
  backup : gmap string (list string);
  results : list row;
  clock : Z;
}.

Definition set_queue (f : list (option (list job)) → list (option (list job))) (w : world) : world :=
  World (f (queue w)) (status_queue w) (log w) (px w) (live w) (backup w) (results w) (clock w).
Definition set_status (f : list status_msg → list status_msg) (w : world) : world :=
  World (queue w) (f (status_queue w)) (log w) (px w) (live w) (backup w) (results w) (clock w).
Definition set_log (f : list log_entry → list log_entry) (w : world) : world :=
  World (queue w) (status_queue w) (f (log w)) (px w) (live w) (backup w) (results w) (clock w).
Definition set_px (f : list px_call → list px_call) (w : world) : world :=
  World (queue w) (status_queue w) (log w) (f (px w)) (live w) (backup w) (results w) (clock w).
Definition set_live (f : gmap string (list string) → gmap string (list string)) (w : world) : world :=
  World (queue w) (status_queue w) (log w) (px w) (f (live w)) (backup w) (results w) (clock w).
Definition set_backup (f : gmap string (list string) → gmap string (list string)) (w : world) : world :=
  World (queue w) (status_queue w) (log w) (px w) (live w) (f (backup w)) (results w) (clock w).
Definition set_results (f : list row → list row) (w : world) : world :=
  World (queue w) (status_queue w) (log w) (px w) (live w) (backup w) (f (results w)) (clock w).

(** ** Computations: state and exceptions *)

Definition M (A : Type) : Type := world → res A * world.

Definition ret {A} (a : A) : M A := λ w, (Ok a, w).
Definition raise {A} (e : exn) : M A := λ w, (Raise e, w).
Definition bind {A B} (c : M A) (k : A → M B) : M B :=
  λ w, match c w with
       | (Ok a, w') => k a w'
       | (Raise e, w') => (Raise e, w')
       end.
Definition lift {A} (r : res A) : M A := λ w, (r, w).

Notation "'do' x <- c ; k" := (bind c (λ x, k))
  (at level 10, x pattern, c at level 100, k at level 200).
Notation "c ;; k" := (bind c (λ _, k))
  (at level 100, k at level 200, right associativity).

(** [try: c  except E: h] where [E] is the class [sel] recognises. *)
Definition try_except {A} (c : M A) (sel : exn → bool) (h : exn → M A) : M A :=
  λ w, match c w with
       | (Raise e, w') => if sel e then h e w' else (Raise e, w')
       | r => r
       end.

Definition any_exception (e : exn) : bool := true.

(** [for x in l: body]. *)
Fixpoint for_each {A} (l : list A) (body : A → M unit) : M unit :=
  match l with
  | [] => ret tt
  | x :: l' => body x ;; for_each l' body
  end.

Definition status_put (m : status_msg) : M unit :=
  λ w, (Ok tt, set_status (λ q, q ++ [m]) w).
Definition queue_put (b : option (list job)) : M unit :=
  λ w, (Ok tt, set_queue (λ q, q ++ [b]) w).
Definition Log (e : log_entry) : M unit :=
  λ w, (Ok tt, set_log (λ l, l ++ [e]) w).
Definition now : M datetime := λ w, (Ok (naive (clock w)), w).


(** ** The collaborators

    The configuration, the libraries and the drivers ([Bck], [Proxmox],
    the HTTP client, the lock files) live outside this file. The program
    only sees what their calls answer, so they are an interface. *)

(** The answer of the profiles API: whether it says [backup: false], and
    the profiles it adds. *)
Record api_reply := {
  backup_false : bool;
  more_profiles : option (dict profile);
}.

Class Env := {
  config : Config;
  (** [dateutil.parser.parse] and [int] on a string. *)
  dateutil_parse : string → res datetime;
  int : string → res Z;
  (** [str] of a datetime, as an f-string renders it. *)
  str_datetime : datetime → string;
  (** The offset of local time from UTC, in microseconds. *)
  utcoffset : Z;
  (** Whether the lock file of a path is free when a process tries it. *)
  lock_free : string → bool;
  (** [Bck(name, ceph, rbd)], [Bck.check_profile], [Bck.make_snap] and
      [Bck.dl_snap]. A snapshot [make_snap] gave up on has no [dest]. *)
  Bck_new : string → string → Bck;
  check_profile : Bck → string → res bool;
  make_snap : Bck → string → Z → res (option string * option string * string);
  dl_snap : Bck → string → string → option string → res unit;
  (** [Proxmox(cluster)], [px.vms], [px.freeze] and [px.thaw]. *)
  Proxmox : Cluster → res unit;
  vms : Cluster → res (list VM);
  freeze : VM → res unit;
  thaw : VM → res unit;
  (** [Ceph(pool, endpoint)] and [ceph.ls] on a plain cluster. *)
  Ceph : Cluster → res unit;
  ls : Cluster → res (list string);
  (** [config['profiles_api']] with what a POST to it answers. *)
  profiles_api : option (Cluster → VM → disk → res api_reply);
}.

(** ** The storage driver *)

(** Modelled from the spec: the storage driver ([ceph.py], section 4.4 of
    the specification) is not part of these sources. [snap] lists the
    snapshots of an image, [rm_snap] deletes one, [rm] deletes the image,
    [exists] tells whether the image is there; listing or changing an
    image that is not there fails. *)
Module Driver.

Definition no_image : exn := Failure "no such image".

Definition snap (image : string) : M (list string) :=
  λ w, match live w !! image with
       | Some snaps => (Ok snaps, w)
       | None => (Raise no_image, w)
       end.

Definition rm_snap (image snap : string) : M unit :=
  λ w, match live w !! image with
       | Some snaps =>
           (Ok tt, set_live (<[image := filter (λ s, s ≠ snap) snaps]>) w)
       | None => (Raise no_image, w)
       end.

Definition backup_snap (image : string) : M (list string) :=
  λ w, match backup w !! image with
       | Some snaps => (Ok snaps, w)
       | None => (Raise no_image, w)
       end.

Definition backup_rm_snap (image snap : string) : M unit :=
  λ w, match backup w !! image with
       | Some snaps =>
           (Ok tt, set_backup (<[image := filter (λ s, s ≠ snap) snaps]>) w)
       | None => (Raise no_image, w)
       end.

Definition backup_rm (image : string) : M unit :=
  λ w, match backup w !! image with
       | Some _ => (Ok tt, set_backup (delete image) w)
       | None => (Raise no_image, w)
       end.

Definition backup_exists (image : string) : M bool :=
  λ w, (Ok (bool_decide (is_Some (backup w !! image))), w).

(** Modelled from the spec: the anchor of an image is the greatest
    snapshot its live and backup sides share, or none. *)
Definition last_shared (live_snaps backup_snaps : list string) : option string :=
  let shared : gset string := list_to_set backup_snaps ∩ list_to_set live_snaps in
  last (sorted (elements shared)).

Definition get_last_shared_snap (rbd dest : string) : M (option string) :=
  do live_snaps <- snap rbd;
  do backup_snaps <- backup_snap dest;
  ret (last_shared live_snaps backup_snaps).

End Driver.

(** ** Lock *)

Module Lock.
Section Lock.
Context `{Env}.

(** [Lock.__init__]: the lock file of a path. *)
Definition lock_path (path : string) : string :=
  lockdir config +:+ "/" +:+ remove_char slash path.

(** [Lock.__enter__]: the lock is taken without waiting. *)
Definition __enter__ (path : string) : M unit :=
  Log (LogMsg Debug ("locking " +:+ lock_path path)) ;;
  if lock_free (lock_path path) then ret tt else raise Timeout.

(** [Lock.__exit__]. *)
Definition __exit__ (path : string) : M unit :=
  Log (LogMsg Debug ("releasing lock " +:+ lock_path path)).

(** [with Lock(path): body]: the lock is released when the body ends,
    whichever way it ends. *)
Definition with_Lock {A} (path : string) (body : M A) : M A :=
  __enter__ path ;;
  λ w, match body w with
       | (r, w') => (r, snd (__exit__ path w'))
       end.

End Lock.
End Lock.


(** ** class Backup *)

(** [multiprocessing.Pool(processes)] refuses fewer than one process. The
    items of a pool are run here one after the other, in list order. *)
Definition Pool (processes : Z) : M unit :=
  if processes <? 1 then raise ValueError else ret tt.

Module Backup.
Section Backup.
Context `{Env}.

Definition is_expired (snap : string) (last : bool) : M bool :=
  let splited := split semicolon snap in
  do stamp <- lift (py_index splited (-1));
  do created_at <- lift (dateutil_parse stamp);
  do profile <- lift (py_index splited (-3));
  do digits <- lift (py_index splited (-2));
  do value <- lift (int digits);
  let expiration :=
    if decide (profile = "daily") then Some (timedelta_days value)
    else if decide (profile = "hourly") then Some (timedelta_hours value)
    else None in
  match expiration with
  | None =>
      Log (LogMsg Warning ("Unknown profile found, no action taken: " +:+ profile)) ;;
      ret false
  | Some expiration =>
      do expiration <- lift expiration;
      do expired_at <- lift (add created_at expiration);
      do expired_at <-
        (if last then
           do grace <- lift (timedelta_days (extra_retention_time config));
           lift (add expired_at grace)
         else ret expired_at);
      do today <- now;
      do later <- lift (gt expired_at today);
      if later then ret false else ret true
  end.

(** Whether [is_expired] answers [True] in a given world. *)
Definition expired_at (w : world) (snap : string) (last : bool) : bool :=
  match fst (is_expired snap last w) with
  | Ok true => true
  | _ => false
  end.

(** The length of time a profile keeps a snapshot, and the grace the
    last snapshot of an image gets, in microseconds. *)
Definition profile_duration (profile : string) (value : Z) : option Z :=
  if decide (profile = "daily") then Some (value * day)
  else if decide (profile = "hourly") then Some (value * hour)
  else None.

Definition grace (last : bool) : Z :=
  if last then extra_retention_time config * day else 0.

(** The dates and durations of a snapshot created at [t] and kept for
    [d] fit in a [timedelta] and a [datetime]. *)
Definition representable (t d : Z) (last : bool) : bool :=
  timedelta_ok d && datetime_ok (t + d) &&
  (if last then timedelta_ok (grace true) && datetime_ok (t + d + grace true)
   else true).

(** *** _create_snap *)

(** One turn of the loop over the profiles; [todo] is the list being
    filled. *)
Definition snapshot (bck : Bck) (todo : list job) (item : string * profile) : M (list job) :=
  let '(profile, value) := item in
  status_put add_item ;;
  do due <- lift (check_profile bck profile);
  if negb due then status_put done_item ;; ret todo
  else
    do n <- lift (match count value with Some n => Ok n | None => Raise KeyError end);
    do made <- lift (make_snap bck profile n);
    let '(dest, last_snap, snap_name) := made in
    match dest with
    | Some dest => ret (todo ++ [Job dest last_snap snap_name bck])
    | None => ret todo
    end.

(** The loop. [todo] is a list the loop appends to: what was appended
    before an exception stays. *)
Fixpoint snapshots (bck : Bck) (profiles : dict profile) (todo : list job)
    (w : world) : list job * res unit * world :=
  match profiles with
  | [] => (todo, Ok tt, w)
  | item :: profiles' =>
      match snapshot bck todo item w with
      | (Ok todo', w') => snapshots bck profiles' todo' w'
      | (Raise e, w') => (todo, Raise e, w')
      end
  end.

Definition _create_snap (bck : Bck) (profiles : dict profile) : M unit :=
  λ w,
    let '(todo, r, w) :=
      match Lock.__enter__ (bck_dest bck) w with
      | (Ok _, w) =>
          let '(todo, r, w) := snapshots bck profiles [] w in
          (todo, r, snd (Lock.__exit__ (bck_dest bck) w))
      | (Raise e, w) => ([], Raise e, w)
      end in
    let put : M unit :=
      if bool_decide (length todo ≠ 0%nat) then queue_put (Some todo) else ret tt in
    match r with
    | Ok _ => put w
    | Raise e => if is_timeout e then put w else (Raise e, w)
    end.

(** *** _expire_item *)

(** [snap >= shared]: a string does not compare with [None]. *)
Definition ge_shared (snap : string) (shared : option string) : res bool :=
  match shared with
  | Some s => Ok (String.leb s snap)
  | None => Raise TypeError
  end.

(** One turn of the loop that files the snapshots by profile. *)
Definition file_snap (shared : option string) (by_profile : dict (list string))
    (snap : string) : res (dict (list string)) :=
  match ge_shared snap shared with
  | Raise e => Raise e
  | Ok true => Ok by_profile
  | Ok false =>
      match py_index (split semicolon snap) 1 with
      | Raise e => Raise e
      | Ok profile => Ok (dict_append by_profile profile snap)
      end
  end.

Fixpoint file_snaps (shared : option string) (by_profile : dict (list string))
    (snaps : list string) : res (dict (list string)) :=
  match snaps with
  | [] => Ok by_profile
  | snap :: snaps' =>
      match file_snap shared by_profile snap with
      | Raise e => Raise e
      | Ok by_profile' => file_snaps shared by_profile' snaps'
      end
  end.

(** [for _ in range(0, n): snaps.pop()], leaving at the first empty
    list. *)
Fixpoint pops (n : nat) (snaps : list string) : list string :=
  match n with
  | O => snaps
  | S n' =>
      match pop snaps with
      | Ok (_, snaps') => pops n' snaps'
      | Raise _ => snaps
      end
  end.

(** What one profile adds to [to_del]. *)
Definition expendable (item : string * list string) : list string :=
  let '(profile, snaps) := item in
  match dict_get (profiles config) profile with
  | None => snaps
  | Some profile =>
      let max_on_live := default 1 (max_on_live profile) in
      pops (length (range max_on_live)) snaps
  end.

(** The [bck] and [rbd] of an item: a disk of a virtual machine, or an
    image of a plain cluster. *)
Definition target (cluster : Cluster) (item : string + disk) : Bck * string :=
  match item with
  | inr disk => (Bck_new (ceph disk) (rbd disk), rbd disk)
  | inl rbd => (Bck_new (cluster_name cluster) rbd, rbd)
  end.

Definition _expire_item (cluster : Cluster) (item : string + disk) : M unit :=
  status_put add_item ;;
  status_put done_item ;;
  let '(bck, rbd) := target cluster item in
  do backups <- Driver.backup_snap (bck_dest bck);
  do snaps <- Driver.snap rbd;
  let shared : gset string := list_to_set backups ∩ list_to_set snaps in
  let shared :=
    match pop (sorted (elements shared)) with
    | Ok (s, _) => Some s
    | Raise _ => None
    end in
  do by_profile <- lift (file_snaps shared [] snaps);
  let to_del := concat (expendable <$> by_profile) in
  for_each to_del (Driver.rm_snap rbd).




(** *** expire_backup *)

(** One turn of the loop over the snapshots that are not the last. *)
Definition expire_snap (image snap : string) : M unit :=
  do expired <- is_expired snap false;
  if negb expired then ret tt
  else Driver.backup_rm_snap image snap.

(** What happens under the lock. *)
Definition expire_locked (image : string) : M unit :=
  do snaps <- Driver.backup_snap image;
  match pop snaps with
  | Raise _ => Driver.backup_rm image
  | Ok (last, snaps) =>
      for_each snaps (expire_snap image) ;;
      do snaps <- Driver.backup_snap image;
      (if bool_decide (length snaps = 1%nat) then
         do expired <- is_expired last true;
         if expired then
           do only <- lift (py_index snaps 0);
           Driver.backup_rm_snap image only
         else ret tt
       else ret tt) ;;
      do remaining <- Driver.backup_snap image;
      if bool_decide (length remaining = 0%nat) then
        Log (LogMsg Debug (image +:+ " has no snapshot left, deleting")) ;;
        Driver.backup_rm image
      else ret tt
  end.

Definition expire_backup (image : string) : M unit :=
  status_put done_item ;;
  try_except
    (Lock.with_Lock image (expire_locked image))
    any_exception
    (λ e, if is_timeout e then ret tt else Log (LogExn Warning e "")).

End Backup.
End Backup.

(** ** class BackupProxmox *)

Module BackupProxmox.
Section BackupProxmox.
Context `{Env}.

Definition __fetch_profiles (cluster : Cluster) (vm : VM) (d : disk) : M (dict profile) :=
  let profiles := profiles config in
  match profiles_api with
  | None => ret profiles
  | Some post =>
      match post cluster vm d with
      | Ok reply =>
          if backup_false reply then ret []
          else match more_profiles reply with
               | Some more => ret (profiles ++ more)
               | None => ret profiles
               end
      | Raise e =>
          Log (LogExn Warning e "thrown while fetching profiles") ;;
          ret profiles
      end
  end.

(** One turn of the loop of [list]. *)
Definition keep (cluster : Cluster) (vm : VM) : M (list VM) :=
  if bool_decide (smbios vm = None) && use_smbios cluster && negb (uuid_fallback config)
  then Log (LogMsg Warning "No smbios found, skipping") ;; ret []
  else ret [vm].

Fixpoint keep_all (cluster : Cluster) (l : list VM) : M (list VM) :=
  match l with
  | [] => ret []
  | vm :: l' =>
      do kept <- keep cluster vm;
      do rest <- keep_all cluster l';
      ret (kept ++ rest)
  end.

Definition list (cluster : Cluster) : M (list VM) :=
  try_except
    (lift (Proxmox cluster) ;;
     do all <- lift (vms cluster);
     keep_all cluster all)
    any_exception
    (λ e, Log (LogExn Error e ("thrown while listing vm on " +:+ cluster_name cluster)) ;;
          ret []).

Definition px_freeze (vm : VM) : M unit :=
  λ w, (freeze vm, set_px (λ l, l ++ [Freeze vm]) w).

Definition px_thaw (vm : VM) : M unit :=
  λ w, (thaw vm, set_px (λ l, l ++ [Thaw vm]) w).

Definition create_snap (cluster : Cluster) (vm : VM) : M unit :=
  try_except
    (lift (Proxmox cluster) ;;
     px_freeze vm ;;
     for_each (to_backup vm)
       (λ '(disk, bck),
          do profiles <- __fetch_profiles cluster vm disk;
          Backup._create_snap bck profiles) ;;
     px_thaw vm)
    any_exception
    (λ e, Log (LogExn Error e "")).

Definition create_snaps (cluster : Cluster) : M unit :=
  do items <- list cluster;
  Pool (live_worker config) ;;
  for_each items (create_snap cluster).

Definition expire_item (cluster : Cluster) (vm : VM) : M unit :=
  try_except
    (for_each (to_backup vm)
       (λ '(disk, bck),
          Lock.with_Lock (bck_dest bck) (Backup._expire_item cluster (inr disk))))
    any_exception
    (λ e, if is_timeout e then Log (LogExn Debug e "")
          else Log (LogExn Warning e "thrown while expiring live")).

Definition expire_live (cluster : Cluster) : M unit :=
  do items <- list cluster;
  Pool (live_worker config) ;;
  for_each items (expire_item cluster).

End BackupProxmox.
End BackupProxmox.

(** ** class BackupPlain *)

Module BackupPlain.
Section BackupPlain.
Context `{Env}.

Definition __init__ (cluster : Cluster) : M unit := lift (Ceph cluster).

Definition list (cluster : Cluster) : M (list string) := lift (ls cluster).

Definition create_snap (cluster : Cluster) (rbd : string) : M unit :=
  let bck := Bck_new (cluster_name cluster) rbd in
  try_except
    (Backup._create_snap bck (profiles config))
    any_exception
    (λ e, Log (LogExn Error e "")).

Definition create_snaps (cluster : Cluster) : M unit :=
  do items <- list cluster;
  Pool (live_worker config) ;;
  for_each items (create_snap cluster).

Definition expire_item (cluster : Cluster) (rbd : string) : M unit :=
  try_except
    (let bck := Bck_new (cluster_name cluster) rbd in
     Lock.with_Lock (bck_dest bck) (Backup._expire_item cluster (inl rbd)))
    any_exception
    (λ e, if is_timeout e then Log (LogExn Debug e "")
          else Log (LogExn Warning e "thrown while expiring live")).

Definition expire_live (cluster : Cluster) : M unit :=
  do items <- list cluster;
  Pool (live_worker config) ;;
  for_each items (expire_item cluster).

End BackupPlain.
End BackupPlain.


(** ** class Status_updater.Real_updater *)

Module Real_updater.

Record counters := { total : Z; todo : Z }.

Definition __init__ : counters := {| total := 0; todo := 0 |}.

(** What [__update] shows as done. *)
Definition done (c : counters) : Z := total c - todo c.

(** One turn of the loop of [__work__] with a message at hand. *)
Definition receive (c : counters) (m : status_msg) : counters :=
  match m with
  | add_item => {| total := total c + 1; todo := todo c + 1 |}
  | done_item => {| total := total c; todo := todo c - 1 |}
  end.

(** The loop of [__work__] over the messages the queue delivers. *)
Definition __work__ (c : counters) (msgs : list status_msg) : counters :=
  foldl receive c msgs.

End Real_updater.

(** ** What the producer reports

    The status messages of one turn of the loop of [_create_snap]: an
    [add_item], and a [done_item] when [check_profile] says the profile
    is not due. *)

Module Accounting.
Section Accounting.
Context `{Env}.

Definition skipped (bck : Bck) (item : string * profile) : bool :=
  match check_profile bck (fst item) with
  | Ok false => true
  | _ => false
  end.

Definition reported (bck : Bck) (item : string * profile) : list status_msg :=
  add_item :: (if skipped bck item then [done_item] else []).

(** The items some messages leave open: those added less those done. *)
Definition balance (msgs : list status_msg) : Z :=
  Z.of_nat (length (filter (λ m, m = add_item) msgs))
  - Z.of_nat (length (filter (λ m, m = done_item) msgs)).

End Accounting.
End Accounting.

(** A computation that leaves on the queue what was there and adds
    nothing but batches to it. *)
Definition adds_batches {A} (c : M A) : Prop :=
  ∀ w, ∃ batches, queue (snd (c w)) = queue w ++ (Some <$> batches).

(** ** class Producer *)

Module Producer.
Section Producer.
Context `{Env}.

Definition __work__ : M unit :=
  for_each (live_clusters config)
    (λ cluster,
       Log (LogMsg Debug ("Backuping " +:+ cluster_type cluster +:+ ": " +:+ cluster_name cluster)) ;;
       if decide (cluster_type cluster = "proxmox") then
         BackupProxmox.create_snaps cluster
       else
         BackupPlain.__init__ cluster ;;
         BackupPlain.create_snaps cluster).

Definition __call__ : M unit :=
  Log (LogMsg Debug "Producer started") ;;
  try_except
    (__work__ ;;
     for_each (range (live_worker config))
       (λ _, try_except (queue_put None) any_exception
               (λ _, Log (LogMsg Error "cannot end a live_worker! This is a critical bug, we will never die"))))
    any_exception
    (λ e, Log (LogExn Error e "")) ;;
  Log (LogMsg Debug "Producer ended").

End Producer.
End Producer.

(** ** class Consumer *)

Module Consumer.
Section Consumer.
Context `{Env}.

(** One turn of the loop of [__work__], with what [queue.get] handed
    over; the answer tells whether the loop goes on. *)
Definition turn (snaps : option (list job)) : M bool :=
  match snaps with
  | None => ret false
  | Some snaps =>
      try_except
        (do first <- lift (py_index snaps 0);
         Lock.with_Lock (dest first)
           (for_each snaps
              (λ snap,
                 lift (dl_snap (job_backup snap) (snap_name snap) (dest snap) (last_snap snap)))))
        any_exception
        (λ e, if is_timeout e then ret tt else Log (LogExn Error e "")) ;;
      status_put done_item ;;
      ret true
  end.

(** A consumer process: whether it is still in its loop, and how many
    end markers it has taken from the queue. *)
Record process := { looping : bool; ends_seen : nat }.

Definition started : process := {| looping := true; ends_seen := 0 |}.

(** The backup phase: the world, what the producer has yet to put on
    the queue, and the consumers. *)
Record phase := Phase {
  shared : world;
  to_put : list (option (list job));
  consumers : list process;
}.

(** The processes take turns: the producer puts its next entry, or a
    consumer that is in its loop gets the head of the queue and does
    one turn with it. [get] blocks on an empty queue. *)
Inductive step : phase → phase → Prop :=
  | step_put w b rest cs :
      step (Phase w (b :: rest) cs)
           (Phase (snd (queue_put b w)) rest cs)
  | step_get w w' pending cs i c got q goes_on :
      cs !! i = Some c →
      looping c = true →
      queue w = got :: q →
      turn got (set_queue (λ _, q) w) = (Ok goes_on, w') →
      step (Phase w pending cs)
           (Phase w' pending
              (<[i := {| looping := goes_on;
                         ends_seen := match got with
                                      | Some _ => ends_seen c
                                      | None => S (ends_seen c)
                                      end |}]> cs)).

(** The phase at its start: [main] starts [live_worker] consumers. *)
Definition start (w : world) (puts : list (option (list job))) : phase :=
  Phase w puts (replicate (length (range (live_worker config))) started).

(** Nothing can move any more. *)
Definition stuck (s : phase) : Prop := ∀ s', ¬ step s s'.

(** A consumer is either in its loop and has seen no end marker, or
    out of it and has seen one. *)
Definition one_end_at_most (c : process) : Prop :=
  (looping c = true ∧ ends_seen c = 0%nat) ∨ (looping c = false ∧ ends_seen c = 1%nat).

(** The end markers on the queue or yet to be put on it. *)
Definition ends_left (s : phase) : nat :=
  length (filter (λ x, x = None) (queue (shared s) ++ to_put s)).

Definition still_looping (cs : list process) : nat :=
  length (filter (λ c, looping c = true) cs).

(** There is an end marker left for every consumer in its loop. *)
Definition balanced (s : phase) : Prop :=
  Forall one_end_at_most (consumers s) ∧ ends_left s = still_looping (consumers s).

End Consumer.
End Consumer.


(** ** class Check *)

(** What [check_img] returns for an image that fails, and the same once
    [add_err] has put the cluster in. *)
Record finding := { image : string; msg : string }.
Record failure := { f_cluster : string; f_image : string; f_msg : string }.

Module Check.
Section Check.
Context `{Env}.


Definition missing (rbd : string) : finding :=
  {| image := rbd; msg := "No backup found for " +:+ rbd +:+ " (image does not exists)" |}.

Definition no_shared_snap (rbd : string) : finding :=
  {| image := rbd; msg := "No backup found for " +:+ rbd +:+ " (no shared snap)" |}.

Definition too_old (rbd : string) (when : datetime) : finding :=
  {| image := rbd;
     msg := "Backup found for " +:+ rbd +:+ ", yet too old (created at " +:+ str_datetime when +:+ ")" |}.

Definition check_img (rbd : string) (backup : Bck) : M (option finding) :=
  try_except
    (do there <- Driver.backup_exists (bck_dest backup);
     if negb there then ret (Some (missing rbd))
     else
       do last <- Driver.get_last_shared_snap rbd (bck_dest backup);
       match last with
       | None => ret (Some (no_shared_snap rbd))
       | Some last =>
           do stamp <- lift (py_index (split semicolon last) 3);
           do when <- lift (dateutil_parse stamp);
           do one_day <- lift (timedelta_days 1);
           do six_hours <- lift (timedelta_hours 6);
           do deadline <- lift (timedelta (one_day + six_hours));
           do today <- now;
           do deadline <- lift (sub today deadline);
           do late <- lift (lt when deadline);
           if late then ret (Some (too_old rbd when)) else ret None
       end)
    any_exception
    (λ e, Log (LogExn Warning e "thrown while checking") ;; ret None).



End Check.
End Check.

(** ** The results table *)

Module Results.
Section Results.
Context `{Env}.

(** [strftime("%s", "now")]: the seconds since 1970-01-01T00:00:00 UTC. *)
Definition strftime_now : M Z :=
  λ w, (Ok ((clock w - utcoffset) / 1000000 - 62135596800), w).

(** [delete from results where cluster = ? and disk = ?] *)
Definition delete_where (c d : string) : M unit :=
  λ w, (Ok tt,
        set_results (filter (λ r, ¬ (row_cluster r = c ∧ row_disk r = d))) w).

(** [insert into results values(strftime("%s", "now"), ?, ?, ?)] *)
Definition insert (c d m : string) : M unit :=
  do stamp <- strftime_now;
  λ w, (Ok tt, set_results (λ t, t ++ [Row stamp c d m]) w).

(** The inner loops: is there an entry for the same cluster and image? *)
Fixpoint found_in_results (i : row) (check_results : list failure) : bool :=
  match check_results with
  | [] => false
  | j :: rest =>
      if negb (bool_decide (row_cluster i = f_cluster j)) then found_in_results i rest
      else if negb (bool_decide (row_disk i = f_image j)) then found_in_results i rest
      else true
  end.

Fixpoint found_in_db (i : failure) (failed_db : list row) : bool :=
  match failed_db with
  | [] => false
  | j :: rest =>
      if negb (bool_decide (row_cluster j = f_cluster i)) then found_in_db i rest
      else if negb (bool_decide (row_disk j = f_image i)) then found_in_db i rest
      else true
  end.

Definition update_check_results (check_results : list failure) : M unit :=
  do failed_db <- (λ w, (Ok (results w), w));
  for_each failed_db
    (λ i, if negb (found_in_results i check_results)
          then delete_where (row_cluster i) (row_disk i)
          else ret tt) ;;
  for_each check_results
    (λ i, if negb (found_in_db i failed_db)
          then insert (f_cluster i) (f_image i) (f_msg i)
          else ret tt).

End Results.
End Results.


(** ** main *)

Module Main.
Section Main.
Context `{Env}.

(** The second phase of the [backup] action: expiry on the live
    clusters. *)
Definition expire_live : M unit :=
  for_each (live_clusters config)
    (λ cluster,
       Log (LogMsg Debug ("Expire snapshots from live " +:+ cluster_type cluster +:+ ": "
                          +:+ cluster_name cluster)) ;;
       if decide (cluster_type cluster = "proxmox") then
         BackupProxmox.expire_live cluster
       else
         BackupPlain.__init__ cluster ;;
         BackupPlain.expire_live cluster).

(** The third phase: expiry on the backup cluster, over the images
    [ceph.backup.ls()] answered. *)
Definition expire_backup (images : list string) : M unit :=
  for_each images (λ _, status_put add_item) ;;
  Pool (backup_worker config) ;;
  for_each images Backup.expire_backup.

End Main.
End Main.

(** ** What a computation leaves alone *)

(** A computation that never raises. *)
Definition returns {A} (c : M A) : Prop := ∀ w, ∃ a, fst (c w) = Ok a.

(** A computation whose every run takes the world to one that [R]
    relates to it. *)
Definition within {A} (R : relation world) (c : M A) : Prop := ∀ w, R w (snd (c w)).

(** Only the log is written. *)
Definition logs_only (w w' : world) : Prop :=
  queue w' = queue w ∧ status_queue w' = status_queue w ∧ px w' = px w ∧
  live w' = live w ∧ backup w' = backup w ∧ results w' = results w ∧ clock w' = clock w.

(** On the backup cluster nothing is added and nothing but snapshots of
    [image], or [image] itself, is removed; the live cluster is left
    alone. *)
Definition backup_shrinks (image : string) (w w' : world) : Prop :=
  live w' = live w ∧ clock w' = clock w ∧
  (∀ other, other ≠ image → backup w' !! other = backup w !! other) ∧
  (∀ l', backup w' !! image = Some l' → ∃ l, backup w !! image = Some l ∧ l' ⊆ l).

(** The same for the live cluster. *)
Definition live_shrinks (image : string) (w w' : world) : Prop :=
  backup w' = backup w ∧ clock w' = clock w ∧
  (∀ other, other ≠ image → live w' !! other = live w !! other) ∧
  (∀ l', live w' !! image = Some l' → ∃ l, live w !! image = Some l ∧ l' ⊆ l).

(** The status messages sent leave no item open. *)
Definition settled (w w' : world) : Prop :=
  ∃ msgs, status_queue w' = status_queue w ++ msgs ∧ Accounting.balance msgs = 0.


(** ** The words of the specification

    Two notions the specification uses and the program does not compute:
    the greatest name of a listing, and the age of a snapshot as its
    name records it. They serve to compare what the specification says
    with what the program does. *)

Module Spec.

(** [max(snaps)], in the order of the names. *)
Definition max_snap (snaps : list string) : option string := last (sorted snaps).

Section Spec.
Context `{Env}.



End Spec.
End Spec.

(** ** The jobs of an image

    What the answers of the driver amount to for one image: a profile
    yields a job when [check_profile] finds it due and [make_snap] names
    a destination. *)

Module Jobs.
Section Jobs.
Context `{Env}.

Definition job_of (bck : Bck) (item : string * profile) : option job :=
  match check_profile bck item.1, count item.2 with
  | Ok true, Some n =>
      match make_snap bck item.1 n with
      | Ok (Some dest, last_snap, snap_name) => Some (Job dest last_snap snap_name bck)
      | _ => None
      end
  | _, _ => None
  end.

Definition jobs_of (bck : Bck) (profiles : dict profile) : list job :=
  omap (job_of bck) profiles.

(** No call fails for a profile: [check_profile] answers, and when the
    profile is due it has a [count] and [make_snap] answers. *)
Definition answers (bck : Bck) (item : string * profile) : Prop :=
  match check_profile bck item.1 with
  | Ok true => ∃ n made, count item.2 = Some n ∧ make_snap bck item.1 n = Ok made
  | Ok false => True
  | Raise _ => False
  end.

(** The queue entries the disks of a machine give, in the order of the
    disks: the jobs of each disk whose lock is free, when there are
    any. *)
Definition batches (fetched : disk → dict profile) (disks : list (disk * Bck)) :
    list (list job) :=
  filter (λ batch, batch ≠ [])
    ((λ '(d, bck), if lock_free (Lock.lock_path (bck_dest bck))
                   then jobs_of bck (fetched d) else []) <$> disks).

End Jobs.
End Jobs.


(** ** A concrete installation

    One configuration and one set of collaborators, to run the
    definitions on: timestamps of the form [YYYY-MM-DDTHH:MM:SS] as the
    tool writes them, decimal counts, free locks, drivers that answer. *)

Module Demo.

Definition digit (c : ascii) : option Z :=
  let n := Z.of_N (N_of_ascii c) in
  if (48 <=? n) && (n <=? 57) then Some (n - 48) else None.

Fixpoint number_go (acc : Z) (s : string) : option Z :=
  match s with
  | EmptyString => Some acc
  | String c s' =>
      match digit c with
      | Some d => number_go (10 * acc + d) s'
      | None => None
      end
  end.

Definition number (s : string) : option Z :=
  match s with
  | EmptyString => None
  | _ => number_go 0 s
  end.

(** Decimal integers with an optional minus sign. *)
Definition int_decimal (s : string) : res Z :=
  match s with
  | String "-" s' =>
      match number s' with Some n => Ok (- n) | None => Raise ValueError end
  | _ => match number s with Some n => Ok n | None => Raise ValueError end
  end.

Definition is_leap (y : Z) : bool :=
  (y mod 4 =? 0) && (negb (y mod 100 =? 0) || (y mod 400 =? 0)).

Definition days_before_year (y : Z) : Z :=
  (y - 1) * 365 + (y - 1) / 4 - (y - 1) / 100 + (y - 1) / 400.

Definition days_before_month (y m : Z) : Z :=
  nth (Z.to_nat (m - 1)) [0; 31; 59; 90; 120; 151; 181; 212; 243; 273; 304; 334] 0
  + (if (2 <? m) && is_leap y then 1 else 0).

Definition iso_parse (s : string) : res datetime :=
  match number (String.substring 0 4 s), number (String.substring 5 2 s),
        number (String.substring 8 2 s), number (String.substring 11 2 s),
        number (String.substring 14 2 s), number (String.substring 17 2 s) with
  | Some y, Some mo, Some d, Some h, Some mi, Some se =>
      if bool_decide (String.length s = 19%nat) then
        let days := days_before_year y + days_before_month y mo + d - 1 in
        let seconds := ((days * 24 + h) * 60 + mi) * 60 + se in
        Ok (naive (seconds * 1000000))
      else Raise ValueError
  | _, _, _, _, _, _ => Raise ValueError
  end.

(** [str] of a datetime: [YYYY-MM-DD HH:MM:SS], with the microseconds
    when there are some and the offset when the datetime has one. *)
Fixpoint digits (n : nat) (v : Z) : string :=
  match n with
  | O => EmptyString
  | S n' => digits n' (v / 10) +:+ String (ascii_of_N (Z.to_N (48 + v mod 10))) EmptyString
  end.

(** The year, month and day of a number of days since 0001-01-01. *)
Definition civil (days : Z) : Z * Z * Z :=
  let z := days + 306 in
  let era := z / 146097 in
  let doe := z mod 146097 in
  let yoe := (doe - doe / 1460 + doe / 36524 - doe / 146096) / 365 in
  let doy := doe - (365 * yoe + yoe / 4 - yoe / 100) in
  let mp := (5 * doy + 2) / 153 in
  let d := doy - (153 * mp + 2) / 5 + 1 in
  let m := if mp <? 10 then mp + 3 else mp - 9 in
  (yoe + era * 400 + (if m <=? 2 then 1 else 0), m, d).

Definition str (d : datetime) : string :=
  let '(y, m, dd) := civil (us d / day) in
  let rest := us d mod day in
  digits 4 y +:+ "-" +:+ digits 2 m +:+ "-" +:+ digits 2 dd +:+ " "
  +:+ digits 2 (rest / hour) +:+ ":" +:+ digits 2 (rest mod hour / 60000000) +:+ ":"
  +:+ digits 2 (rest mod 60000000 / 1000000)
  +:+ (if rest mod 1000000 =? 0 then "" else "." +:+ digits 6 (rest mod 1000000))
  +:+ match tzinfo d with
      | None => ""
      | Some off =>
          (if off <? 0 then "-" else "+")
          +:+ digits 2 (Z.abs off / hour) +:+ ":" +:+ digits 2 (Z.abs off mod hour / 60000000)
      end.

(** A cluster with one virtual machine of two disks. *)
Definition pve : Cluster :=
  {| cluster_type := "proxmox"; cluster_name := "pve"; use_smbios := false |}.

Definition demo_Bck (name rbd : string) : Bck :=
  {| bck_name := name; bck_rbd := rbd; bck_dest := name +:+ ";" +:+ rbd |}.

Definition disk0 : disk := {| rbd := "vm-100-disk-0"; ceph := "pve"; adapter := "scsi0" |}.
Definition disk1 : disk := {| rbd := "vm-100-disk-1"; ceph := "pve"; adapter := "scsi1" |}.
Definition bck0 : Bck := demo_Bck "pve" "vm-100-disk-0".
Definition bck1 : Bck := demo_Bck "pve" "vm-100-disk-1".

Definition vm100 : VM := {|
  vmid := 100;
  vm_name := "web";
  smbios := None;
  node := "node1";
  to_backup := [(disk0, bck0); (disk1, bck1)];
|}.

(** Two profiles: seven daily snapshots, two of them kept on live, and
    twenty-four hourly ones; three consumers; two days of grace. *)
Definition demo_config : Config := {|
  live_clusters := [pve];
  profiles := [("daily", Profile (Some 7) (Some 2)); ("hourly", Profile (Some 24) None)];
  extra_retention_time := 2;
  live_worker := 3;
  backup_worker := 2;
  uuid_fallback := false;
  lockdir := "/var/lock/backurne";
|}.

(** A driver that finds every profile due and takes the snapshot. *)
Definition demo_make_snap (b : Bck) (profile : string) (n : Z) :
    res (option string * option string * string) :=
  Ok (Some (bck_dest b), None, "backup;" +:+ profile +:+ ";7;2024-03-10T00:00:00").

(** A driver whose snapshot command fails. *)
Definition broken_make_snap (b : Bck) (profile : string) (n : Z) :
    res (option string * option string * string) :=
  Raise (Failure "rbd: creating snapshot failed").

(** An installation around a given [make_snap] and given lock files. *)
Definition installation
    (make : Bck → string → Z → res (option string * option string * string))
    (free : string → bool) : Env := {|
  config := demo_config;
  dateutil_parse := iso_parse;
  int := int_decimal;
  str_datetime := str;
  utcoffset := 0;
  lock_free := free;
  Bck_new := demo_Bck;
  check_profile := λ _ _, Ok true;
  make_snap := make;
  dl_snap := λ _ _ _ _, Ok tt;
  Proxmox := λ _, Ok tt;
  vms := λ _, Ok [vm100];
  freeze := λ _, Ok tt;
  thaw := λ _, Ok tt;
  Ceph := λ _, Ok tt;
  ls := λ _, Ok [];
  profiles_api := None;
|}.

#[export] Instance demo : Env := installation demo_make_snap (λ _, true).

Definition broken : Env := installation broken_make_snap (λ _, true).

Definition contended : Env := installation demo_make_snap (λ _, false).

(** 2024-03-10T00:00:00 and 2024-03-20T00:00:00 in microseconds. *)
Definition march_10 : Z := 63845625600000000.
Definition march_20 : Z := march_10 + 10 * day.

Definition empty_world (t : Z) : world :=
  World [] [] [] [] ∅ ∅ [] t.

(** The first disk with the given snapshots on the live and on the
    backup cluster. *)
Definition stored (live_snaps backup_snaps : list string) (t : Z) : world :=
  World [] [] [] []
    {[ "vm-100-disk-0" := live_snaps ]}
    {[ "pve;vm-100-disk-0" := backup_snaps ]}
    [] t.

(** A week of snapshots, in the order of their names. *)
Definition week : list string :=
  [ "backup;adhoc;1;2024-03-05T00:00:00";
    "backup;daily;7;2024-03-06T00:00:00";
    "backup;daily;7;2024-03-07T00:00:00";
    "backup;daily;7;2024-03-08T00:00:00";
    "backup;daily;7;2024-03-09T00:00:00";
    "backup;daily;7;2024-03-10T00:00:00";
    "backup;hourly;24;2024-03-10T10:00:00";
    "backup;hourly;24;2024-03-10T11:00:00";
    "backup;hourly;24;2024-03-10T12:00:00";
    "backup;hourly;24;2024-03-10T13:00:00" ].

End Demo.


(** ** Installations that fail *)

Module Outage.

(** A driver that takes the daily snapshot and fails on the hourly
    one. *)
Definition half_make_snap (b : Bck) (profile : string) (n : Z) :
    res (option string * option string * string) :=
  if decide (profile = "daily") then Demo.demo_make_snap b profile n
  else Demo.broken_make_snap b profile n.

Definition half : Env := Demo.installation half_make_snap (λ _, true).

(** A plain cluster that cannot be listed. *)
Definition plain : Cluster :=
  {| cluster_type := "plain"; cluster_name := "rbd"; use_smbios := false |}.

Definition plain_config : Config := {|
  live_clusters := [plain];
  profiles := profiles Demo.demo_config;
  extra_retention_time := 2;
  live_worker := 3;
  backup_worker := 2;
  uuid_fallback := false;
  lockdir := "/var/lock/backurne";
|}.

Definition unreachable : Env := {|
  config := plain_config;
  dateutil_parse := Demo.iso_parse;
  int := Demo.int_decimal;
  str_datetime := Demo.str;
  utcoffset := 0;
  lock_free := λ _, true;
  Bck_new := Demo.demo_Bck;
  check_profile := λ _ _, Ok true;
  make_snap := Demo.demo_make_snap;
  dl_snap := λ _ _ _ _, Ok tt;
  Proxmox := λ _, Ok tt;
  vms := λ _, Ok [];
  freeze := λ _, Ok tt;
  thaw := λ _, Ok tt;
  Ceph := λ _, Ok tt;
  ls := λ _, Raise (Failure "rbd: cannot reach the cluster");
  profiles_api := None;
|}.


(** A machine without smbios beside the demonstration machine, on a
    cluster that asks for one. *)
Definition strict_pve : Cluster :=
  {| cluster_type := "proxmox"; cluster_name := "pve"; use_smbios := true |}.

Definition vm101 : VM := {|
  vmid := 101;
  vm_name := "db";
  smbios := Some "4c4c4544-0042";
  node := "node1";
  to_backup := [];
|}.

Definition two_vms : Env := {|
  config := Demo.demo_config;
  dateutil_parse := Demo.iso_parse;
  int := Demo.int_decimal;
  str_datetime := Demo.str;
  utcoffset := 0;
  lock_free := λ _, true;
  Bck_new := Demo.demo_Bck;
  check_profile := λ _ _, Ok true;
  make_snap := Demo.demo_make_snap;
  dl_snap := λ _ _ _ _, Ok tt;
  Proxmox := λ _, Ok tt;
  vms := λ _, Ok [Demo.vm100; vm101];
  freeze := λ _, Ok tt;
  thaw := λ _, Ok tt;
  Ceph := λ _, Ok tt;
  ls := λ _, Ok [];
  profiles_api := None;
|}.

End Outage.


(** * Properties *)

(** ** Running computations *)

Lemma bind_ok {A B} (c : M A) (k : A → M B) w a w' :
  c w = (Ok a, w') → bind c k w = k a w'.
Proof. intros E. unfold bind. by rewrite E. Qed.

Lemma bind_raise {A B} (c : M A) (k : A → M B) w e w' :
  c w = (Raise e, w') → bind c k w = (Raise e, w').
Proof. intros E. unfold bind. by rewrite E. Qed.

Lemma bind_lift_ok {A B} (a : A) (k : A → M B) w :
  bind (lift (Ok a)) k w = k a w.
Proof. reflexivity. Qed.

Lemma bind_ret {A B} (a : A) (k : A → M B) w : bind (ret a) k w = k a w.
Proof. reflexivity. Qed.

(** ** The expiry rule *)

Section ExpiryFacts.
Context `{Env}.

Lemma timedelta_ok_eq d : timedelta_ok d = true → timedelta d = Ok d.
Proof. intros E. unfold timedelta. by rewrite E. Qed.

Lemma add_naive t d :
  datetime_ok (t + d) = true → add (naive t) d = Ok (naive (t + d)).
Proof. intros E. unfold add. simpl. by rewrite E. Qed.

(** C5. For a snapshot name [tag;profile;count;timestamp] whose
    timestamp and count read as [t] and [value], [is_expired] answers
    whether [t] plus the duration of the profile, plus the grace when
    the snapshot is treated as the last one, is at most the current
    time. For a profile that is neither daily nor hourly it answers
    false and logs a warning. *)
Theorem is_expired_canonical
    (snap tag profile digits stamp : string) (t value : Z) (last : bool) (w : world) :
  split semicolon snap = [tag; profile; digits; stamp] →
  dateutil_parse stamp = Ok (naive t) →
  int digits = Ok value →
  (∀ d, Backup.profile_duration profile value = Some d → Backup.representable t d last = true) →
  Backup.is_expired snap last w =
    match Backup.profile_duration profile value with
    | Some d => (Ok (bool_decide (t + d + Backup.grace last ≤ clock w)), w)
    | None =>
        (Ok false,
         set_log (λ l, l ++ [LogMsg Warning ("Unknown profile found, no action taken: " +:+ profile)]) w)
    end.
Proof.
  intros Hsplit Hdate Hint Hrep.
  unfold Backup.is_expired. rewrite Hsplit.
  change (py_index [tag; profile; digits; stamp] (-1)) with (Ok stamp).
  change (py_index [tag; profile; digits; stamp] (-3)) with (Ok profile).
  change (py_index [tag; profile; digits; stamp] (-2)) with (Ok digits).
  rewrite bind_lift_ok, Hdate, bind_lift_ok, !bind_lift_ok, Hint, bind_lift_ok.
  assert (Hdur : ∀ d, Backup.profile_duration profile value = Some d →
    (do expiration <- lift (timedelta d);
     do expired_at <- lift (add (naive t) expiration);
     do expired_at <-
       (if last then
          do grace <- lift (timedelta_days (extra_retention_time config));
          lift (add expired_at grace)
        else ret expired_at);
     do today <- now;
     do later <- lift (gt expired_at today);
     if later then ret false else ret true) w
    = (Ok (bool_decide (t + d + Backup.grace last ≤ clock w)), w)).
  { intros d Hd. specialize (Hrep d Hd). unfold Backup.representable in Hrep.
    apply andb_prop in Hrep as [Hrep Hlast].
    apply andb_prop in Hrep as [Htd Hdt].
    unfold bind, lift. rewrite (timedelta_ok_eq _ Htd), (add_naive _ _ Hdt).
    destruct last.
    - apply andb_prop in Hlast as [Hg Hgd]. unfold Backup.grace in *.
      unfold timedelta_days. rewrite (timedelta_ok_eq _ Hg), (add_naive _ _ Hgd).
      unfold now, gt, lt, ret. simpl.
      case_bool_decide;
        destruct (Z.ltb_spec (clock w) (t + d + extra_retention_time config * day));
        (done || lia).
    - unfold now, gt, lt, ret, Backup.grace. simpl.
      case_bool_decide; destruct (Z.ltb_spec (clock w) (t + d)); (done || lia). }
  unfold Backup.profile_duration in *.
  destruct (decide (profile = "daily")); [by apply Hdur|].
  destruct (decide (profile = "hourly")); [by apply Hdur|].
  reflexivity.
Qed.

End ExpiryFacts.

(** A daily snapshot of 2024-03-10 kept seven days is expired ten days
    later. *)
Lemma is_expired_canonical_witness :
  @Backup.is_expired Demo.demo "backup;daily;7;2024-03-10T00:00:00" false (Demo.empty_world Demo.march_20)
  = (Ok true, Demo.empty_world Demo.march_20).
Proof.
  assert (E := @is_expired_canonical Demo.demo
    "backup;daily;7;2024-03-10T00:00:00" "backup" "daily" "7" "2024-03-10T00:00:00"
    Demo.march_10 7 false (Demo.empty_world Demo.march_20)).
  simpl in E. apply E.
  - reflexivity.
  - vm_compute. reflexivity.
  - reflexivity.
  - intros d Hd. injection Hd as <-. vm_compute. reflexivity.
Defined.


(** ** The producer *)

Section ProducerFacts.
Context `{Env}.

(** One turn of the loop: what it reports, and what it appends. *)
Lemma snapshot_turn bck todo item w :
  ∃ r w', Backup.snapshot bck todo item w = (r, w') ∧
    queue w' = queue w ∧ px w' = px w ∧
    status_queue w' = status_queue w ++ Accounting.reported bck item ∧
    match r with
    | Ok todo' =>
        todo' = todo ∨
        (∃ j, todo' = todo ++ [j] ∧ job_backup j = bck ∧ Accounting.skipped bck item = false)
    | Raise _ => True
    end.
Proof.
  destruct item as [profile value].
  unfold Backup.snapshot, Accounting.reported, Accounting.skipped, bind, status_put, lift, ret.
  simpl. destruct (check_profile bck profile) as [[|]|e]; simpl.
  - destruct (count value) as [n|]; simpl; [|by eauto 10].
    destruct (make_snap bck profile n) as [[[[d|] l] s]|e]; simpl; eauto 12.
  - eexists _, _. split; [done|]. simpl. rewrite <- app_assoc. eauto 10.
  - eauto 10.
Qed.

(** The loop: the queue is left alone, each profile it reaches reports
    once, and every job it appends is a job of this image. *)
Lemma snapshots_loop bck profiles todo w :
  ∃ todo' r w' considered, Backup.snapshots bck profiles todo w = (todo', r, w') ∧
    queue w' = queue w ∧ px w' = px w ∧
    considered `prefix_of` profiles ∧
    status_queue w' = status_queue w ++ concat (Accounting.reported bck <$> considered) ∧
    (∃ more, todo' = todo ++ more ∧ Forall (λ j, job_backup j = bck) more ∧
       (length more ≤ length (filter (λ i, Accounting.skipped bck i = false) considered))%nat).
Proof.
  revert todo w. induction profiles as [|item profiles IH]; intros todo w; simpl.
  - exists todo, (Ok tt), w, []. rewrite !app_nil_r. repeat split; try done.
    exists []. rewrite app_nil_r. repeat split; [constructor | simpl; lia].
  - destruct (snapshot_turn bck todo item w) as (r & w1 & E & Hq & Hp & Hs & Hr).
    rewrite E. destruct r as [todo1|e].
    + destruct (IH todo1 w1) as (todo' & r & w' & considered & E' & Hq' & Hp' & Hpre & Hs' & more & -> & Hmore & Hlen).
      exists (todo1 ++ more), r, w', (item :: considered). rewrite E'.
      repeat split; try congruence.
      * by apply prefix_cons.
      * rewrite Hs', Hs. simpl. by rewrite <- app_assoc.
      * destruct Hr as [->|(j & -> & Hj & Hsk)].
        -- exists more. repeat split; try done.
           rewrite filter_cons. case_decide; simpl; lia.
        -- exists (j :: more). rewrite <- app_assoc. repeat split; try done.
           ++ by constructor.
           ++ rewrite filter_cons. rewrite decide_True by done. simpl. lia.
    + exists todo, (Raise e), w1, [item]. repeat split; try done.
      * apply prefix_cons, prefix_nil.
      * simpl. by rewrite app_nil_r.
      * exists []. rewrite app_nil_r. repeat split; [constructor | simpl; lia].
Qed.

(** [_create_snap] puts at most one entry on the queue: the jobs of
    this image, when there are any. *)
Lemma create_snap_disk bck profiles w :
  ∃ r w' todo considered, Backup._create_snap bck profiles w = (r, w') ∧
    px w' = px w ∧
    considered `prefix_of` profiles ∧
    status_queue w' = status_queue w ++ concat (Accounting.reported bck <$> considered) ∧
    Forall (λ j, job_backup j = bck) todo ∧
    (length todo ≤ length (filter (λ i, Accounting.skipped bck i = false) considered))%nat ∧
    (queue w' = queue w ∨ (todo ≠ [] ∧ queue w' = queue w ++ [Some todo])).
Proof.
  unfold Backup._create_snap, Lock.__enter__, Lock.__exit__, bind, Log, ret, raise.
  destruct (lock_free _); simpl.
  - match goal with |- context [Backup.snapshots bck profiles [] ?w1] =>
      destruct (snapshots_loop bck profiles [] w1)
        as (todo & r & w' & considered & E & Hq & Hp & Hpre & Hs & more & -> & Hmore & Hlen)
    end.
    rewrite E. simpl in *.
    assert (Hput : ∀ w2, queue w2 = queue w → px w2 = px w →
              status_queue w2 = status_queue w ++ concat (Accounting.reported bck <$> considered) →
              ∃ r2 w3, (if bool_decide (length more ≠ 0%nat) then queue_put (Some more) else ret tt) w2 = (r2, w3) ∧
                px w3 = px w ∧
                status_queue w3 = status_queue w ++ concat (Accounting.reported bck <$> considered) ∧
                (queue w3 = queue w ∨ (more ≠ [] ∧ queue w3 = queue w ++ [Some more]))).
    { intros w2 Hq2 Hp2 Hs2. case_bool_decide as Hne.
      - eexists _, _. split; [done|]. simpl. repeat split; try done.
        right. split; [by destruct more | by rewrite Hq2].
      - eexists _, _. split; [done|]. simpl. eauto. }
    destruct r as [[]|e].
    + edestruct Hput as (r2 & w3 & E2 & ? & ? & ?); [..|rewrite E2]; simpl; try done.
      eexists _, _, more, considered. eauto 10.
    + destruct (is_timeout e).
      * edestruct Hput as (r2 & w3 & E2 & ? & ? & ?); [..|rewrite E2]; simpl; try done.
        eexists _, _, more, considered. eauto 10.
      * eexists _, _, [], considered. split; [done|]. simpl.
        repeat split; try done; try (by constructor); try (simpl; lia); try (by left).
  - eexists _, _, [], []. split; [done|]. simpl. rewrite app_nil_r.
    repeat split; try done; try (by constructor); try apply prefix_nil; try (by left).
Qed.

Lemma fetch_profiles_frame cluster vm d w :
  ∃ profiles w', BackupProxmox.__fetch_profiles cluster vm d w = (Ok profiles, w') ∧
    queue w' = queue w ∧ px w' = px w ∧ status_queue w' = status_queue w.
Proof.
  unfold BackupProxmox.__fetch_profiles, bind, Log, ret.
  destruct profiles_api as [post|]; [|by eauto 10].
  destruct (post cluster vm d) as [reply|e]; [|by eauto 10].
  destruct (backup_false reply); [by eauto 10|].
  destruct (more_profiles reply); by eauto 10.
Qed.

(** The loop over the disks of a virtual machine: every disk that
    yields jobs gets a queue entry of its own. *)
Lemma disks_loop cluster vm disks w :
  ∃ r w' served batches,
    for_each disks
      (λ '(disk, bck),
         do profiles <- BackupProxmox.__fetch_profiles cluster vm disk;
         Backup._create_snap bck profiles) w = (r, w') ∧
    px w' = px w ∧
    queue w' = queue w ++ (Some <$> batches) ∧
    served `sublist_of` disks ∧
    Forall2 (λ d batch, batch ≠ [] ∧ Forall (λ j, job_backup j = d.2) batch) served batches.
Proof.
  revert w. induction disks as [|[disk bck] disks IH]; intros w; simpl.
  - exists (Ok tt), w, [], []. simpl. rewrite app_nil_r. by repeat split.
  - unfold bind at 1 2.
    destruct (fetch_profiles_frame cluster vm disk w) as (profiles & w1 & -> & Hq1 & Hp1 & _).
    destruct (create_snap_disk bck profiles w1)
      as (r & w2 & todo & considered & -> & Hp2 & _ & _ & Htodo & _ & Hq2).
    destruct r as [[]|e].
    + destruct (IH w2) as (r & w' & served & batches & -> & Hp & Hq & Hsub & Hall).
      destruct Hq2 as [Hq2|[Hne Hq2]].
      * exists r, w', served, batches. repeat split; try congruence.
        by apply sublist_cons.
      * exists r, w', ((disk, bck) :: served), (todo :: batches).
        repeat split; try congruence.
        -- rewrite Hq, Hq2, Hq1. simpl. by rewrite <- app_assoc.
        -- by apply sublist_skip.
        -- by constructor.
    + destruct Hq2 as [Hq2|[Hne Hq2]].
      * exists (Raise e), w2, [], []. simpl. rewrite app_nil_r.
        repeat split; try congruence; try constructor. apply sublist_nil_l.
      * exists (Raise e), w2, [(disk, bck)], [todo]. simpl.
        repeat split; try congruence.
        -- apply sublist_skip, sublist_nil_l.
        -- by repeat constructor.
Qed.

(** With every call answering, a turn of the loop appends the job of
    its profile, if there is one. *)
Lemma snapshot_answers bck todo item w :
  Jobs.answers bck item →
  ∃ w', Backup.snapshot bck todo item w
        = (Ok (todo ++ option_list (Jobs.job_of bck item)), w') ∧
    queue w' = queue w.
Proof.
  destruct item as [profile value].
  unfold Jobs.answers, Jobs.job_of, Backup.snapshot, bind, status_put, lift, ret. simpl.
  destruct (check_profile bck profile) as [[|]|e]; simpl; [| |done].
  - intros (n & made & -> & ->). simpl. destruct made as [[[d|] l] s]; simpl.
    + by eauto.
    + rewrite app_nil_r. by eauto.
  - intros _. rewrite app_nil_r. by eauto.
Qed.

Lemma snapshots_answers bck profiles :
  ∀ todo w,
    Forall (Jobs.answers bck) profiles →
    ∃ w', Backup.snapshots bck profiles todo w
          = (todo ++ Jobs.jobs_of bck profiles, Ok tt, w') ∧
      queue w' = queue w.
Proof.
  induction profiles as [|item profiles IH]; intros todo w Hall; simpl.
  - exists w. by rewrite app_nil_r.
  - apply Forall_cons in Hall as [Hitem Hall].
    destruct (snapshot_answers bck todo item w Hitem) as (w1 & -> & Hq1).
    destruct (IH (todo ++ option_list (Jobs.job_of bck item)) w1 Hall) as (w' & -> & Hq').
    exists w'. split; [|congruence]. f_equal. f_equal.
    unfold Jobs.jobs_of. simpl. rewrite <- app_assoc. f_equal.
    by destruct (Jobs.job_of bck item).
Qed.

(** With every call answering, [_create_snap] puts the jobs of the
    image on the queue as one entry, unless there is none or the lock
    is held. *)
Lemma create_snap_answers bck profiles w :
  Forall (Jobs.answers bck) profiles →
  ∃ w', Backup._create_snap bck profiles w = (Ok tt, w') ∧
    queue w' =
      queue w ++ (Some <$> filter (λ batch, batch ≠ [])
                    [if lock_free (Lock.lock_path (bck_dest bck))
                     then Jobs.jobs_of bck profiles else []]).
Proof.
  intros Hall.
  unfold Backup._create_snap, Lock.__enter__, Lock.__exit__, bind, Log, ret, raise.
  destruct (lock_free _); simpl.
  - match goal with |- context [Backup.snapshots bck profiles [] ?w1] =>
      destruct (snapshots_answers bck profiles [] w1 Hall) as (w' & -> & Hq)
    end.
    simpl in *. rewrite filter_cons, filter_nil.
    destruct (Jobs.jobs_of bck profiles) as [|j jobs] eqn:Hjobs; simpl.
    + eexists. split; [done|]. simpl. by rewrite app_nil_r.
    + eexists. split; [done|]. simpl. by rewrite Hq.
  - eexists. split; [done|]. simpl. by rewrite app_nil_r.
Qed.

Lemma disks_answers cluster vm (fetched : disk → dict profile) disks :
  ∀ w,
    (∀ d bck w0, (d, bck) ∈ disks →
       fst (BackupProxmox.__fetch_profiles cluster vm d w0) = Ok (fetched d)) →
    (∀ d bck item, (d, bck) ∈ disks → item ∈ fetched d → Jobs.answers bck item) →
    ∃ w',
      for_each disks
        (λ '(disk, bck),
           do profiles <- BackupProxmox.__fetch_profiles cluster vm disk;
           Backup._create_snap bck profiles) w = (Ok tt, w') ∧
      queue w' = queue w ++ (Some <$> Jobs.batches fetched disks).
Proof.
  induction disks as [|[d bck] disks IH]; intros w Hfetch Hans.
  - exists w. simpl. by rewrite app_nil_r.
  - cbn [for_each]. unfold bind at 1 2.
    destruct (fetch_profiles_frame cluster vm d w) as (profiles & w1 & E & Hq1 & _).
    pose proof (Hfetch d bck w (list_elem_of_here _ _)) as Hps.
    rewrite E in Hps |- *. simpl in Hps. injection Hps as ->.
    destruct (create_snap_answers bck (fetched d) w1) as (w2 & -> & Hq2).
    { apply Forall_forall. intros item Hitem.
      by apply (Hans d bck item (list_elem_of_here _ _)). }
    destruct (IH w2) as (w' & -> & Hq').
    { intros d' bck' w0 Hin. apply (Hfetch d' bck'). by apply list_elem_of_further. }
    { intros d' bck' item Hin. apply Hans. by apply list_elem_of_further. }
    exists w'. split; [done|].
    rewrite Hq', Hq2, Hq1, <- app_assoc, <- fmap_app. f_equal. f_equal.
    unfold Jobs.batches. rewrite fmap_cons, filter_cons.
    rewrite filter_cons, filter_nil. by case_decide.
Qed.

(** C8, as the program has it. A virtual machine that can be frozen
    and for the disks of which every call of the driver answers. Every
    disk is served on its own: the jobs made for a disk (one for each
    profile that is due and for which [make_snap] names a
    destination, in the order of the profiles) go to the queue as one
    entry; a disk without a job, or whose lock is held, gives none; and
    the entries come in the order of the disks. A machine with several
    disks gives as many entries, never one batch. *)
Theorem create_snap_one_batch_per_disk cluster vm (fetched : disk → dict profile) w :
  Proxmox cluster = Ok tt →
  freeze vm = Ok tt →
  (∀ d bck w0, (d, bck) ∈ to_backup vm →
     fst (BackupProxmox.__fetch_profiles cluster vm d w0) = Ok (fetched d)) →
  (∀ d bck item, (d, bck) ∈ to_backup vm → item ∈ fetched d → Jobs.answers bck item) →
  queue (snd (BackupProxmox.create_snap cluster vm w))
  = queue w ++
    (Some <$> filter (λ batch, batch ≠ [])
       ((λ '(d, bck), if lock_free (Lock.lock_path (bck_dest bck))
                      then omap (Jobs.job_of bck) (fetched d) else [])
          <$> to_backup vm)).
Proof.
  intros Hpx Hfreeze Hfetch Hans.
  unfold BackupProxmox.create_snap, try_except, bind at 1, lift.
  rewrite Hpx. cbv beta iota.
  unfold bind at 1, BackupProxmox.px_freeze. rewrite Hfreeze. cbv beta iota.
  unfold bind at 1.
  match goal with |- context [for_each _ _ ?w1] =>
    destruct (disks_answers cluster vm fetched (to_backup vm) w1 Hfetch Hans) as (w' & -> & Hq)
  end.
  unfold BackupProxmox.px_thaw. destruct (thaw vm) as [[]|e]; simpl; by rewrite Hq.
Qed.

End ProducerFacts.

(** C1. A virtual machine whose first disk cannot be snapshotted (the
    driver raises in [make_snap]): the machine is frozen, the error is
    logged, and [thaw] is never called. *)
Theorem create_snap_failure_skips_thaw :
  let w := snd (@BackupProxmox.create_snap Demo.broken Demo.pve Demo.vm100
                  (Demo.empty_world Demo.march_10)) in
  px w = [Freeze Demo.vm100] ∧
  (Thaw Demo.vm100 ∉ px w) ∧
  (LogExn Error (Failure "rbd: creating snapshot failed") "" ∈ log w).
Proof.
  vm_compute. split; [done|]. split.
  - intros Hin. apply list_elem_of_singleton in Hin. discriminate.
  - do 2 apply list_elem_of_further. apply list_elem_of_here.
Qed.

(** A lock somebody else holds is not such a failure: the disk is left
    out and the machine is thawed. *)
Lemma create_snap_contended_thaws :
  px (snd (@BackupProxmox.create_snap Demo.contended Demo.pve Demo.vm100
             (Demo.empty_world Demo.march_10)))
  = [Freeze Demo.vm100; Thaw Demo.vm100].
Proof. vm_compute. reflexivity. Qed.

(** C8, as stated, fails: the two disks of one machine reach the queue
    as two entries, not as one batch. *)
Lemma create_snap_two_batches :
  ¬ ∃ batch,
      queue (snd (@BackupProxmox.create_snap Demo.demo Demo.pve Demo.vm100
                    (Demo.empty_world Demo.march_10)))
      = [Some batch].
Proof. intros [batch E]. vm_compute in E. discriminate. Qed.

(** The demonstration machine: both profiles are due on both disks, and
    each disk gives an entry of its two jobs. *)
Lemma create_snap_one_batch_per_disk_witness :
  queue (snd (@BackupProxmox.create_snap Demo.demo Demo.pve Demo.vm100
                (Demo.empty_world Demo.march_10)))
  = [ Some [ Job "pve;vm-100-disk-0" None "backup;daily;7;2024-03-10T00:00:00" Demo.bck0;
             Job "pve;vm-100-disk-0" None "backup;hourly;7;2024-03-10T00:00:00" Demo.bck0 ];
      Some [ Job "pve;vm-100-disk-1" None "backup;daily;7;2024-03-10T00:00:00" Demo.bck1;
             Job "pve;vm-100-disk-1" None "backup;hourly;7;2024-03-10T00:00:00" Demo.bck1 ] ].
Proof.
  rewrite (@create_snap_one_batch_per_disk Demo.demo Demo.pve Demo.vm100
             (λ _, profiles Demo.demo_config)).
  - vm_compute. reflexivity.
  - reflexivity.
  - reflexivity.
  - intros d bck w0 _. reflexivity.
  - intros d bck item _. revert item. apply Forall_forall.
    repeat (apply Forall_cons; split; [eexists _, _; split; reflexivity|]).
    by apply Forall_nil.
Defined.


(** ** The consumers and the status reporter *)

Section AccountingFacts.
Context `{Env}.

Lemma balance_app a b :
  Accounting.balance (a ++ b) = Accounting.balance a + Accounting.balance b.
Proof. unfold Accounting.balance. rewrite !filter_app, !length_app. lia. Qed.

Lemma balance_perm a b : a ≡ₚ b → Accounting.balance a = Accounting.balance b.
Proof. intros P. unfold Accounting.balance. by rewrite P. Qed.

Lemma work_todo c msgs :
  Real_updater.todo (Real_updater.__work__ c msgs)
  = Real_updater.todo c + Accounting.balance msgs.
Proof.
  unfold Real_updater.__work__. revert c.
  induction msgs as [|m msgs IH]; intros c; simpl.
  - unfold Accounting.balance. simpl. lia.
  - rewrite IH, (balance_app [m] msgs : Accounting.balance (m :: msgs) = _).
    destruct m; unfold Accounting.balance; simpl; lia.
Qed.

Lemma balance_reported bck considered :
  Accounting.balance (concat (Accounting.reported bck <$> considered))
  = Z.of_nat (length (filter (λ i, Accounting.skipped bck i = false) considered)).
Proof.
  induction considered as [|item l IH]; [done|].
  rewrite fmap_cons, concat_cons, balance_app, IH, filter_cons. unfold Accounting.reported.
  destruct (Accounting.skipped bck item); unfold Accounting.balance; simpl; lia.
Qed.

(** Downloading touches neither queue. *)
Lemma downloads_frame (snaps : list job) w :
  ∃ r, for_each snaps
         (λ snap, lift (dl_snap (job_backup snap) (snap_name snap) (dest snap) (last_snap snap))) w
       = (r, w).
Proof.
  induction snaps as [|snap snaps [r IH]]; simpl; [by eauto|].
  unfold bind, lift. destruct (dl_snap _ _ _ _); simpl; eauto.
Qed.

(** A turn of the consumer's loop always ends. With a batch at hand it
    reports one [done_item], however many jobs the batch holds and
    however they went, and the loop goes on; with the end marker the
    loop stops. *)
Lemma turn_batch batch w :
  ∃ w', Consumer.turn (Some batch) w = (Ok true, w') ∧
    status_queue w' = status_queue w ++ [done_item] ∧ queue w' = queue w.
Proof.
  unfold Consumer.turn, bind at 1, try_except, bind at 1. unfold lift at 1.
  destruct (py_index batch 0) as [first|e]; simpl.
  - unfold Lock.with_Lock, Lock.__enter__, Lock.__exit__, bind, Log, raise, ret.
    simpl. destruct (lock_free _); simpl.
    + match goal with |- context [for_each batch ?f ?w1] =>
        destruct (downloads_frame batch w1) as [r ->] end.
      destruct r as [[]|e]; simpl; [by eauto|].
      destruct (is_timeout e); simpl; by eauto.
    + by eauto.
  - destruct (is_timeout e); simpl; by eauto.
Qed.

Lemma turn_end w : Consumer.turn None w = (Ok false, w).
Proof. reflexivity. Qed.

(** C10. When [_create_snap] has put a batch for an image, the producer
    has reported an [add_item] for every profile it got to and a
    [done_item] for the skipped ones only; the consumer answers the
    whole batch with one [done_item]. Whatever the order in which the
    reporter receives these messages, its [todo] ends at least the size
    of the batch less one above where it was. *)
Theorem status_accounting_unbalanced bck profiles w r w1 batch :
  Backup._create_snap bck profiles w = (r, w1) →
  queue w1 = queue w ++ [Some batch] →
  ∃ considered,
    considered `prefix_of` profiles ∧
    status_queue w1 = status_queue w ++ concat (Accounting.reported bck <$> considered) ∧
    (∀ w2, ∃ w3, Consumer.turn (Some batch) w2 = (Ok true, w3) ∧
                 status_queue w3 = status_queue w2 ++ [done_item]) ∧
    (∀ msgs c, msgs ≡ₚ concat (Accounting.reported bck <$> considered) ++ [done_item] →
       Real_updater.todo c + Z.of_nat (length batch) - 1
       ≤ Real_updater.todo (Real_updater.__work__ c msgs)).
Proof.
  intros E Hq.
  destruct (create_snap_disk bck profiles w)
    as (r' & w' & todo & considered & E' & _ & Hpre & Hs & _ & Hlen & Hput).
  rewrite E in E'. injection E' as <- <-.
  assert (todo = batch) as ->.
  { destruct Hput as [Hput|[_ Hput]]; rewrite Hq in Hput.
    - apply (f_equal length) in Hput. rewrite length_app in Hput. simpl in Hput. lia.
    - apply app_inv_head in Hput. congruence. }
  exists considered. repeat split; try done.
  - intros w2. destruct (turn_batch batch w2) as (w3 & ? & ? & _). eauto.
  - intros msgs c P. rewrite work_todo, (balance_perm _ _ P), balance_app, balance_reported.
    unfold Accounting.balance at 1. simpl. lia.
Qed.

End AccountingFacts.

(** The first disk of the demonstration machine: two profiles are due,
    the batch holds two jobs, and one item stays open. *)
Lemma status_accounting_unbalanced_witness :
  let w := Demo.empty_world Demo.march_10 in
  let run := @Backup._create_snap Demo.demo Demo.bck0 (profiles Demo.demo_config) w in
  ∃ batch, length batch = 2%nat ∧ queue (snd run) = queue w ++ [Some batch] ∧
    ∀ msgs c,
      msgs ≡ₚ status_queue (snd run) ++ [done_item] →
      Real_updater.todo c + 1 ≤ Real_updater.todo (Real_updater.__work__ c msgs).
Proof.
  intros w run.
  destruct (queue (snd run)) as [|[batch|] [|? ?]] eqn:Q; try (vm_compute in Q; discriminate).
  exists batch. split; [vm_compute in Q; by injection Q as <-|]. split; [done|].
  destruct (@status_accounting_unbalanced Demo.demo Demo.bck0 (profiles Demo.demo_config)
              w (fst run) (snd run) batch) as (considered & _ & Hs & _ & Hbound).
  - apply surjective_pairing.
  - done.
  - intros msgs c P. rewrite Hs in P. simpl in P.
    specialize (Hbound msgs c P).
    assert (length batch = 2%nat) as L by (vm_compute in Q; by injection Q as <-).
    rewrite L in Hbound. lia.
Defined.


(** ** The end markers *)

Section BatchFacts.
Context `{Env}.

Lemma adds_batches_ret {A} (a : A) : adds_batches (ret a).
Proof. intros w. exists []. simpl. by rewrite app_nil_r. Qed.

Lemma adds_batches_raise {A} e : adds_batches (@raise A e).
Proof. intros w. exists []. simpl. by rewrite app_nil_r. Qed.

Lemma adds_batches_lift {A} (r : res A) : adds_batches (lift r).
Proof. intros w. exists []. simpl. by rewrite app_nil_r. Qed.

Lemma adds_batches_Log e : adds_batches (Log e).
Proof. intros w. exists []. simpl. by rewrite app_nil_r. Qed.

Lemma adds_batches_bind {A B} (c : M A) (k : A → M B) :
  adds_batches c → (∀ a, adds_batches (k a)) → adds_batches (bind c k).
Proof.
  intros Hc Hk w. unfold bind. destruct (Hc w) as [b1 E1].
  destruct (c w) as [[a|e] w1]; simpl in *.
  - destruct (Hk a w1) as [b2 E2]. exists (b1 ++ b2).
    by rewrite E2, E1, fmap_app, app_assoc.
  - by exists b1.
Qed.

Lemma adds_batches_try {A} (c : M A) sel h :
  adds_batches c → (∀ e, adds_batches (h e)) → adds_batches (try_except c sel h).
Proof.
  intros Hc Hh w. unfold try_except. destruct (Hc w) as [b1 E1].
  destruct (c w) as [[a|e] w1]; simpl in *.
  - by exists b1.
  - destruct (sel e); [|by exists b1].
    destruct (Hh e w1) as [b2 E2]. exists (b1 ++ b2).
    by rewrite E2, E1, fmap_app, app_assoc.
Qed.

Lemma adds_batches_for_each {A} (l : list A) (body : A → M unit) :
  (∀ x, adds_batches (body x)) → adds_batches (for_each l body).
Proof.
  intros Hb. induction l as [|x l IH]; simpl.
  - apply adds_batches_ret.
  - apply adds_batches_bind; [apply Hb | intros _; apply IH].
Qed.

Lemma adds_batches_Pool n : adds_batches (Pool n).
Proof.
  unfold Pool. destruct (n <? 1); [apply adds_batches_raise | apply adds_batches_ret].
Qed.

Lemma adds_batches_create_snap_disk bck profiles :
  adds_batches (Backup._create_snap bck profiles).
Proof.
  intros w. destruct (create_snap_disk bck profiles w)
    as (r & w' & todo & considered & -> & _ & _ & _ & _ & _ & [Hq|[_ Hq]]); simpl.
  - exists []. simpl. by rewrite app_nil_r.
  - by exists [todo].
Qed.

Lemma adds_batches_create_snap_vm cluster vm :
  adds_batches (BackupProxmox.create_snap cluster vm).
Proof.
  unfold BackupProxmox.create_snap. apply adds_batches_try.
  - apply adds_batches_bind; [apply adds_batches_lift | intros _].
    apply adds_batches_bind.
    { intros w. exists []. simpl. by rewrite app_nil_r. }
    intros _. apply adds_batches_bind.
    + apply adds_batches_for_each. intros [d bck].
      apply adds_batches_bind.
      * intros w. destruct (fetch_profiles_frame cluster vm d w) as (ps & w' & -> & Hq & _).
        exists []. simpl. by rewrite app_nil_r.
      * intros ps. apply adds_batches_create_snap_disk.
    + intros _ w. exists []. simpl. by rewrite app_nil_r.
  - intros e. apply adds_batches_Log.
Qed.

Lemma adds_batches_keep_all cluster l : adds_batches (BackupProxmox.keep_all cluster l).
Proof.
  induction l as [|vm l IH]; simpl; [apply adds_batches_ret|].
  apply adds_batches_bind.
  - unfold BackupProxmox.keep. destruct (_ && _).
    + apply adds_batches_bind; [apply adds_batches_Log | intros; apply adds_batches_ret].
    + apply adds_batches_ret.
  - intros kept. apply adds_batches_bind; [apply IH | intros; apply adds_batches_ret].
Qed.

Lemma adds_batches_list cluster : adds_batches (BackupProxmox.list cluster).
Proof.
  unfold BackupProxmox.list. apply adds_batches_try.
  - apply adds_batches_bind; [apply adds_batches_lift | intros _].
    apply adds_batches_bind; [apply adds_batches_lift | intros all].
    apply adds_batches_keep_all.
  - intros e. apply adds_batches_bind; [apply adds_batches_Log | intros; apply adds_batches_ret].
Qed.

Lemma adds_batches_work : adds_batches Producer.__work__.
Proof.
  unfold Producer.__work__. apply adds_batches_for_each. intros cluster.
  apply adds_batches_bind; [apply adds_batches_Log | intros _].
  destruct (decide _).
  - unfold BackupProxmox.create_snaps.
    apply adds_batches_bind; [apply adds_batches_list | intros items].
    apply adds_batches_bind; [apply adds_batches_Pool | intros _].
    apply adds_batches_for_each. intros vm. apply adds_batches_create_snap_vm.
  - apply adds_batches_bind; [apply adds_batches_lift | intros _].
    unfold BackupPlain.create_snaps.
    apply adds_batches_bind; [apply adds_batches_lift | intros items].
    apply adds_batches_bind; [apply adds_batches_Pool | intros _].
    apply adds_batches_for_each. intros rbd. unfold BackupPlain.create_snap.
    apply adds_batches_try; [apply adds_batches_create_snap_disk | intros; apply adds_batches_Log].
Qed.

(** The loop that ends the consumers puts one end marker per turn. *)
Lemma ends_loop (l : list Z) w :
  ∃ w', for_each l
          (λ _, try_except (queue_put None) any_exception
                  (λ _, Log (LogMsg Error "cannot end a live_worker! This is a critical bug, we will never die"))) w
        = (Ok tt, w') ∧
    queue w' = queue w ++ replicate (length l) None.
Proof.
  revert w. induction l as [|x l IH]; intros w; simpl.
  - exists w. by rewrite app_nil_r.
  - unfold bind at 1. unfold try_except at 1. unfold queue_put at 1.
    destruct (IH (set_queue (λ q, q ++ [None]) w)) as (w' & -> & Hq).
    exists w'. split; [done|]. rewrite Hq. simpl. by rewrite <- app_assoc.
Qed.

(** Once [__work__] has returned, [__call__] puts [live_worker] end
    markers behind what [__work__] left on the queue. *)
Lemma call_puts_ends w w1 :
  Producer.__work__ (snd (Log (LogMsg Debug "Producer started") w)) = (Ok tt, w1) →
  queue (snd (Producer.__call__ w))
  = queue w1 ++ replicate (length (range (live_worker config))) None.
Proof.
  intros E. unfold Producer.__call__. unfold bind at 1.
  change (Log (LogMsg Debug "Producer started") w)
    with (Ok tt, snd (Log (LogMsg Debug "Producer started") w)).
  cbv beta iota. unfold bind at 1. unfold try_except at 1. unfold bind at 1.
  rewrite E. cbv beta iota.
  destruct (ends_loop (range (live_worker config)) w1) as (w' & -> & Hq).
  by simpl.
Qed.

End BatchFacts.


Section PhaseFacts.
Context `{Env}.

Lemma length_range n : length (range n) = Z.to_nat n.
Proof. unfold range. by rewrite length_fmap, length_seq. Qed.

Lemma looping_insert cs i c c' :
  cs !! i = Some c →
  (Consumer.still_looping (<[i := c']> cs) + (if Consumer.looping c then 1 else 0)
   = Consumer.still_looping cs + (if Consumer.looping c' then 1 else 0))%nat.
Proof.
  unfold Consumer.still_looping. revert i.
  induction cs as [|x cs IH]; intros [|i] Hi; simpl in Hi; simplify_eq; simpl insert.
  - rewrite !filter_cons.
    repeat case_decide;
      destruct (Consumer.looping c), (Consumer.looping c'); simplify_eq; simpl; lia.
  - rewrite !filter_cons. specialize (IH i Hi).
    repeat case_decide; simpl; lia.
Qed.

Lemma no_end_in_batches (batches : list (list job)) :
  filter (λ x, x = None) (Some <$> batches) = [].
Proof. induction batches as [|b l IH]; [done|]. by rewrite fmap_cons, filter_cons_False. Qed.

Lemma ends_in_replicate n :
  filter (λ x : option (list job), x = None) (replicate n None) = replicate n None.
Proof.
  induction n as [|n IH]; [done|].
  change (replicate (S n) (@None (list job))) with (@None (list job) :: replicate n None).
  by rewrite filter_cons_True, IH.
Qed.

Lemma still_looping_started n :
  Consumer.still_looping (replicate n Consumer.started) = n.
Proof.
  unfold Consumer.still_looping. induction n as [|n IH]; [done|].
  change (replicate (S n) Consumer.started) with (Consumer.started :: replicate n Consumer.started).
  rewrite filter_cons_True by done. simpl. by rewrite IH.
Qed.

(** At the start there is an end marker to come for every consumer. *)
Lemma start_balanced w batches :
  queue w = [] →
  Consumer.balanced
    (Consumer.start w ((Some <$> batches) ++ replicate (length (range (live_worker config))) None)).
Proof.
  intros Hq. split; simpl.
  - apply Forall_replicate. by left.
  - unfold Consumer.ends_left. simpl.
    rewrite Hq, app_nil_l, filter_app, no_end_in_batches, ends_in_replicate, app_nil_l.
    by rewrite length_replicate, still_looping_started.
Qed.

(** Every move keeps it so. *)
Lemma step_balanced s s' :
  Consumer.balanced s → Consumer.step s s' → Consumer.balanced s'.
Proof.
  intros [Hall Hcount] Hstep. destruct Hstep as [w b rest cs|w w' pending cs i c got q goes_on Hi Hloop Hq Hturn].
  - split; [done|]. unfold Consumer.ends_left in *. simpl in *.
    by rewrite <- app_assoc.
  - unfold Consumer.ends_left in *. simpl in *.
    assert (Hc : Consumer.ends_seen c = 0%nat).
    { eapply Forall_lookup_1 in Hall; [|done].
      destruct Hall as [[_ ?]|[? _]]; [done|congruence]. }
    pose proof (looping_insert cs i c
      {| Consumer.looping := goes_on;
         Consumer.ends_seen := match got with
                               | Some _ => Consumer.ends_seen c
                               | None => S (Consumer.ends_seen c)
                               end |} Hi) as Hins.
    rewrite Hloop in Hins. simpl in Hins.
    rewrite Hq in Hcount. destruct got as [batch|].
    + destruct (turn_batch batch (set_queue (λ _, q) w)) as (w'' & E & _ & Hq').
      rewrite E in Hturn. injection Hturn as <- <-.
      split.
      * apply Forall_insert; [done|]. left. by rewrite Hc.
      * unfold Consumer.ends_left. simpl. rewrite Hq'. simpl.
        change ((Some batch :: q) ++ pending) with (Some batch :: (q ++ pending)) in Hcount.
        rewrite filter_cons_False in Hcount by done. lia.
    + rewrite turn_end in Hturn. injection Hturn as <- <-.
      split.
      * apply Forall_insert; [done|]. right. by rewrite Hc.
      * unfold Consumer.ends_left. simpl.
        change ((None :: q) ++ pending) with (None :: (q ++ pending)) in Hcount.
        rewrite filter_cons_True in Hcount by done. simpl in Hcount. lia.
Qed.

Lemma step_consumers s s' :
  Consumer.step s s' → length (Consumer.consumers s') = length (Consumer.consumers s).
Proof. intros []; simpl; [done|]. by rewrite length_insert. Qed.

Lemma reach_balanced s s' :
  Consumer.balanced s → rtc Consumer.step s s' →
  Consumer.balanced s' ∧ length (Consumer.consumers s') = length (Consumer.consumers s).
Proof.
  intros Hb Hr. induction Hr as [|s s1 s2 Hstep Hr IH]; [done|].
  destruct IH as [IH1 IH2]; [by eapply step_balanced|].
  split; [done|]. rewrite IH2. by apply step_consumers.
Qed.

(** When nothing can move any more, every consumer has left its loop. *)
Lemma stuck_all_out s :
  Consumer.balanced s → Consumer.stuck s →
  Forall (λ c, Consumer.looping c = false ∧ Consumer.ends_seen c = 1%nat) (Consumer.consumers s).
Proof.
  intros [Hall Hcount] Hstuck. destruct s as [w pending cs]. simpl in *.
  destruct pending as [|b rest]; [|by exfalso; eapply Hstuck; constructor].
  unfold Consumer.ends_left in Hcount. simpl in Hcount. rewrite app_nil_r in Hcount.
  apply Forall_lookup_2. intros i c Hi.
  pose proof (Forall_lookup_1 _ _ _ _ Hall Hi) as [[Hloop _]|Hout]; [|done].
  exfalso.
  assert (Consumer.still_looping cs ≠ 0%nat) as Hpos.
  { unfold Consumer.still_looping. intros Hz. apply length_zero_iff_nil in Hz.
    assert (c ∈ filter (λ c, Consumer.looping c = true) cs) as Hin
      by (apply list_elem_of_filter; split; [done | by eapply list_elem_of_lookup_2]).
    rewrite Hz in Hin. by apply not_elem_of_nil in Hin. }
  destruct (queue w) as [|got q] eqn:Hq; [simpl in Hcount; lia|].
  assert (∃ goes_on w', Consumer.turn got (set_queue (λ _, q) w) = (Ok goes_on, w')) as (g & w' & Hturn).
  { destruct got as [batch|].
    - destruct (turn_batch batch (set_queue (λ _, q) w)) as (w' & E & _). eauto.
    - rewrite turn_end. eauto. }
  eapply Hstuck. by eapply Consumer.step_get.
Qed.

(** C9. Once [__work__] has gone through the clusters, [__call__] puts
    exactly [live_worker] end markers on the queue, behind the batches.
    A consumer leaves its loop on the end marker it gets. So, however
    the producer and the [live_worker] consumers take turns, no
    consumer ever sees two end markers, and when nothing can move any
    more each has left its loop having seen exactly one. *)
Theorem end_markers w w1 :
  queue w = [] →
  Producer.__work__ (snd (Log (LogMsg Debug "Producer started") w)) = (Ok tt, w1) →
  let puts := queue (snd (Producer.__call__ w)) in
  (∃ batches, queue w1 = Some <$> batches ∧
     puts = queue w1 ++ replicate (Z.to_nat (live_worker config)) None) ∧
  (∀ w', Consumer.turn None w' = (Ok false, w')) ∧
  (∀ s, rtc Consumer.step (Consumer.start w puts) s →
     length (Consumer.consumers s) = Z.to_nat (live_worker config) ∧
     Forall (λ c, Consumer.ends_seen c ≤ 1)%nat (Consumer.consumers s) ∧
     (Consumer.stuck s →
      Forall (λ c, Consumer.looping c = false ∧ Consumer.ends_seen c = 1%nat)
        (Consumer.consumers s))).
Proof.
  intros Hq Hwork puts.
  assert (∃ batches, queue w1 = Some <$> batches) as [batches Hb].
  { destruct (adds_batches_work (snd (Log (LogMsg Debug "Producer started") w))) as [batches E].
    rewrite Hwork in E. simpl in E. rewrite Hq in E. eauto. }
  assert (puts = (Some <$> batches) ++ replicate (length (range (live_worker config))) None) as Hputs.
  { unfold puts. by rewrite (call_puts_ends w w1 Hwork), Hb. }
  split; [|split].
  - exists batches. split; [done|]. by rewrite Hputs, Hb, length_range.
  - apply turn_end.
  - intros s Hreach. rewrite Hputs in Hreach.
    destruct (reach_balanced _ _ (start_balanced w batches Hq) Hreach) as [Hbal Hlen].
    split; [|split].
    + rewrite Hlen. simpl. by rewrite length_replicate, length_range.
    + eapply Forall_impl; [apply Hbal|]. intros c [[_ ->]|[_ ->]]; lia.
    + by apply stuck_all_out.
Qed.

End PhaseFacts.

(** The demonstration cluster: two batches, then three end markers for
    the three consumers, each of which ends having seen one. *)
Lemma end_markers_witness :
  let w := Demo.empty_world Demo.march_10 in
  let puts := queue (snd (@Producer.__call__ Demo.demo w)) in
  length puts = 5%nat ∧
  ∀ s, rtc (@Consumer.step Demo.demo) (@Consumer.start Demo.demo w puts) s →
       @Consumer.stuck Demo.demo s →
       Forall (λ c, Consumer.looping c = false ∧ Consumer.ends_seen c = 1%nat)
         (Consumer.consumers s).
Proof.
  intros w puts. split; [vm_compute; reflexivity|].
  intros s Hs Hstuck.
  destruct (@end_markers Demo.demo w
              (snd (@Producer.__work__ Demo.demo (snd (Log (LogMsg Debug "Producer started") w)))))
    as (_ & _ & Hall).
  - reflexivity.
  - vm_compute. reflexivity.
  - by apply Hall.
Defined.


(** ** The results table *)

Section ResultsFacts.
Context `{Env}.

Lemma found_in_results_spec i check_results :
  Results.found_in_results i check_results = true ↔
  ∃ j, j ∈ check_results ∧ row_cluster i = f_cluster j ∧ row_disk i = f_image j.
Proof.
  induction check_results as [|j rest IH]; simpl.
  - split; [done|]. intros (j & Hj & _). by apply not_elem_of_nil in Hj.
  - repeat case_bool_decide; simpl.
    + split; [|done]. intros _. exists j. split; [apply list_elem_of_here | done].
    + rewrite IH. split; intros (j' & Hj' & Hc & Hd).
      * exists j'. split; [by apply list_elem_of_further | done].
      * apply elem_of_cons in Hj' as [->|Hj']; [done|]. by exists j'.
    + rewrite IH. split; intros (j' & Hj' & Hc & Hd).
      * exists j'. split; [by apply list_elem_of_further | done].
      * apply elem_of_cons in Hj' as [->|Hj']; [done|]. by exists j'.
    + rewrite IH. split; intros (j' & Hj' & Hc & Hd).
      * exists j'. split; [by apply list_elem_of_further | done].
      * apply elem_of_cons in Hj' as [->|Hj']; [done|]. by exists j'.
Qed.

Lemma found_in_db_spec i failed_db :
  Results.found_in_db i failed_db = true ↔
  ∃ j, j ∈ failed_db ∧ row_cluster j = f_cluster i ∧ row_disk j = f_image i.
Proof.
  induction failed_db as [|j rest IH]; simpl.
  - split; [done|]. intros (j & Hj & _). by apply not_elem_of_nil in Hj.
  - repeat case_bool_decide; simpl.
    + split; [|done]. intros _. exists j. split; [apply list_elem_of_here | done].
    + rewrite IH. split; intros (j' & Hj' & Hc & Hd).
      * exists j'. split; [by apply list_elem_of_further | done].
      * apply elem_of_cons in Hj' as [->|Hj']; [done|]. by exists j'.
    + rewrite IH. split; intros (j' & Hj' & Hc & Hd).
      * exists j'. split; [by apply list_elem_of_further | done].
      * apply elem_of_cons in Hj' as [->|Hj']; [done|]. by exists j'.
    + rewrite IH. split; intros (j' & Hj' & Hc & Hd).
      * exists j'. split; [by apply list_elem_of_further | done].
      * apply elem_of_cons in Hj' as [->|Hj']; [done|]. by exists j'.
Qed.

Lemma filter_agree {A} (P Q : A → Prop) `{∀ x, Decision (P x)} `{∀ x, Decision (Q x)} (l : list A) :
  (∀ x, x ∈ l → P x ↔ Q x) → filter P l = filter Q l.
Proof.
  induction l as [|x l IH]; intros HPQ; [done|].
  rewrite !filter_cons.
  rewrite IH by (intros y Hy; apply HPQ; by apply list_elem_of_further).
  pose proof (HPQ x (list_elem_of_here _ _)).
  repeat case_decide; tauto || done.
Qed.

Lemma filter_all {A} (P : A → Prop) `{∀ x, Decision (P x)} (l : list A) :
  (∀ x, x ∈ l → P x) → filter P l = l.
Proof.
  induction l as [|x l IH]; intros HP; [done|].
  rewrite filter_cons_True by (apply HP, list_elem_of_here).
  rewrite IH; [done|]. intros y Hy. by apply HP, list_elem_of_further.
Qed.

Lemma filter_none {A} (P : A → Prop) `{∀ x, Decision (P x)} (l : list A) :
  (∀ x, x ∈ l → ¬ P x) → filter P l = [].
Proof.
  induction l as [|x l IH]; intros HP; [done|].
  rewrite filter_cons_False by (apply HP, list_elem_of_here).
  apply IH. intros y Hy. by apply HP, list_elem_of_further.
Qed.

(** The first loop: a row goes when a turn of the loop deletes the rows
    of its cluster and disk. *)
Lemma delete_loop check_results (l : list row) w :
  ∃ w', for_each l
          (λ i, if negb (Results.found_in_results i check_results)
                then Results.delete_where (row_cluster i) (row_disk i)
                else ret tt) w = (Ok tt, w') ∧
    clock w' = clock w ∧
    results w' =
      filter (λ r, Forall (λ i, Results.found_in_results i check_results = false →
                                ¬ (row_cluster r = row_cluster i ∧ row_disk r = row_disk i)) l)
        (results w).
Proof.
  revert w. induction l as [|i l IH]; intros w; simpl.
  - exists w. repeat split; try done. symmetry. apply filter_all.
    intros r _. constructor.
  - unfold bind at 1.
    destruct (Results.found_in_results i check_results) eqn:Hf; simpl.
    + destruct (IH w) as (w' & -> & Hc & Hr). exists w'. repeat split; try done.
      rewrite Hr. apply filter_agree. intros r _. rewrite Forall_cons. split.
      * intros Hall. split; [congruence | done].
      * by intros [_ Hall].
    + destruct (IH (set_results
                      (filter (λ r, ¬ (row_cluster r = row_cluster i ∧ row_disk r = row_disk i))) w))
        as (w' & -> & Hc & Hr).
      exists w'. repeat split; try done.
      rewrite Hr. simpl. rewrite list_filter_filter. apply filter_agree.
      intros r _. rewrite Forall_cons. split.
      * intros [Hall Hi]. split; [done | done].
      * intros [Hi Hall]. split; [done | by apply Hi].
Qed.

Lemma insert_run c d m w :
  Results.insert c d m w
  = (Ok tt, set_results
              (λ t, t ++ [Row ((clock w - utcoffset) / 1000000 - 62135596800) c d m]) w).
Proof. reflexivity. Qed.

(** The second loop: one row is added for each failure the table did
    not know. *)
Lemma insert_loop failed_db (l : list failure) w :
  ∃ w', for_each l
          (λ i, if negb (Results.found_in_db i failed_db)
                then Results.insert (f_cluster i) (f_image i) (f_msg i)
                else ret tt) w = (Ok tt, w') ∧
    clock w' = clock w ∧
    results w' =
      results w ++
      ((λ i, Row ((clock w - utcoffset) / 1000000 - 62135596800) (f_cluster i) (f_image i) (f_msg i))
         <$> filter (λ i, Results.found_in_db i failed_db = false) l).
Proof.
  revert w. induction l as [|i l IH]; intros w; simpl.
  - exists w. by rewrite app_nil_r.
  - unfold bind at 1. rewrite filter_cons.
    destruct (Results.found_in_db i failed_db) eqn:Hf.
    + simpl. destruct (IH w) as (w' & -> & Hc & Hr). exists w'. repeat split; try done.
    + cbn [negb]. rewrite insert_run. rewrite decide_True by done.
      match goal with |- context [for_each l _ ?w1] =>
        destruct (IH w1) as (w' & -> & Hc & Hr) end.
      exists w'. repeat split; try done.
      rewrite Hr. simpl. by rewrite <- app_assoc.
Qed.

(** What a run of [update_check_results] leaves in the table. *)
Lemma update_results check_results w :
  ∃ w', Results.update_check_results check_results w = (Ok tt, w') ∧
    results w' =
      filter (λ r, Results.found_in_results r check_results = true) (results w) ++
      ((λ i, Row ((clock w - utcoffset) / 1000000 - 62135596800) (f_cluster i) (f_image i) (f_msg i))
         <$> filter (λ i, Results.found_in_db i (results w) = false) check_results).
Proof.
  unfold Results.update_check_results, bind at 1. unfold bind at 1.
  destruct (delete_loop check_results (results w) w) as (w1 & -> & Hc1 & Hr1).
  destruct (insert_loop (results w) check_results w1) as (w' & -> & Hc & Hr).
  exists w'. split; [done|]. rewrite Hr, Hr1, Hc1. f_equal.
  apply filter_agree. intros r Hr0. split.
  - intros Hall. destruct (Results.found_in_results r check_results) eqn:Hf; [done|].
    exfalso. rewrite Forall_forall in Hall. by apply (Hall r Hr0 Hf).
  - intros Hf. apply Forall_forall. intros i Hi Hnf [Hc' Hd'].
    apply found_in_results_spec in Hf as (j & Hj & Hjc & Hjd).
    assert (Results.found_in_results i check_results = true); [|congruence].
    apply found_in_results_spec. exists j. split; [done|]. split; congruence.
Qed.

(** C7. After [update_check_results] the table holds the rows it had
    whose cluster and image are among the fresh failures, unchanged and
    in their order, followed by one row, stamped with the current time,
    for each fresh failure whose cluster and image the table did not
    have. Running it again with the same failures, at any later time,
    changes nothing. *)
Theorem update_check_results_reconciles check_results w :
  let w' := snd (Results.update_check_results check_results w) in
  results w' =
    filter (λ r, Exists (λ j, row_cluster r = f_cluster j ∧ row_disk r = f_image j) check_results)
      (results w) ++
    ((λ i, Row ((clock w - utcoffset) / 1000000 - 62135596800) (f_cluster i) (f_image i) (f_msg i))
       <$> filter (λ i, ¬ Exists (λ r, row_cluster r = f_cluster i ∧ row_disk r = f_image i) (results w))
             check_results) ∧
  ∀ later, results later = results w' →
    results (snd (Results.update_check_results check_results later)) = results w'.
Proof.
  intros w'.
  assert (Hshape : ∀ w0,
    results (snd (Results.update_check_results check_results w0)) =
    filter (λ r, Exists (λ j, row_cluster r = f_cluster j ∧ row_disk r = f_image j) check_results)
      (results w0) ++
    ((λ i, Row ((clock w0 - utcoffset) / 1000000 - 62135596800) (f_cluster i) (f_image i) (f_msg i))
       <$> filter (λ i, ¬ Exists (λ r, row_cluster r = f_cluster i ∧ row_disk r = f_image i) (results w0))
             check_results)).
  { intros w0. destruct (update_results check_results w0) as (w1 & -> & Hr). simpl.
    rewrite Hr.
    f_equal; [|f_equal]; apply filter_agree; intros x _.
    - rewrite Exists_exists. apply found_in_results_spec.
    - rewrite Exists_exists, <- found_in_db_spec.
      by destruct (Results.found_in_db x (results w0)). }
  split; [apply Hshape|].
  intros later Hlater. rewrite (Hshape later), Hlater.
  assert (Hkept : ∀ r, r ∈ results w' →
            Exists (λ j, row_cluster r = f_cluster j ∧ row_disk r = f_image j) check_results).
  { intros r Hr. unfold w' in Hr. rewrite (Hshape w) in Hr.
    apply elem_of_app in Hr as [Hr|Hr].
    - by apply list_elem_of_filter in Hr as [? _].
    - apply list_elem_of_fmap in Hr as (i & -> & Hi).
      apply list_elem_of_filter in Hi as [_ Hi]. apply Exists_exists. by exists i. }
  assert (Hknown : ∀ i, i ∈ check_results →
            Exists (λ r, row_cluster r = f_cluster i ∧ row_disk r = f_image i) (results w')).
  { intros i Hi. unfold w'. rewrite (Hshape w). apply Exists_exists.
    destruct (decide (Exists (λ r, row_cluster r = f_cluster i ∧ row_disk r = f_image i) (results w)))
      as [Hold|Hnew].
    - apply Exists_exists in Hold as (r & Hr & Hc & Hd).
      exists r. split; [|done]. apply elem_of_app. left.
      apply list_elem_of_filter. split; [|done]. apply Exists_exists. by exists i.
    - exists (Row ((clock w - utcoffset) / 1000000 - 62135596800)
                (f_cluster i) (f_image i) (f_msg i)).
      split; [|done]. apply elem_of_app. right.
      apply list_elem_of_fmap. exists i. split; [done|]. by apply list_elem_of_filter. }
  rewrite (filter_all _ (results w')) by (intros r Hr; by apply Hkept).
  rewrite (filter_none _ check_results); [by rewrite app_nil_r|].
  intros i Hi Hn. by apply Hn, Hknown.
Qed.

End ResultsFacts.


(** ** The freshness check *)

Section CheckFacts.
Context `{Env}.

Lemma try_except_ok {A} (c : M A) sel h w a w' :
  c w = (Ok a, w') → try_except c sel h w = (Ok a, w').
Proof. intros E. unfold try_except. by rewrite E. Qed.

Lemma backup_exists_run image w :
  Driver.backup_exists image w = (Ok (bool_decide (is_Some (backup w !! image))), w).
Proof. reflexivity. Qed.

Lemma get_last_shared_snap_run rbd dest w live_snaps backup_snaps :
  live w !! rbd = Some live_snaps →
  backup w !! dest = Some backup_snaps →
  Driver.get_last_shared_snap rbd dest w
  = (Ok (Driver.last_shared live_snaps backup_snaps), w).
Proof.
  intros Hl Hb. unfold Driver.get_last_shared_snap, bind, Driver.snap, Driver.backup_snap.
  by rewrite Hl, Hb.
Qed.

(** C6. [check_img] on an image of the live cluster, at a time from
    which thirty hours can be taken off. It returns a record saying
    that no backup was found because the image does not exist, when
    the destination is not on the backup cluster; a record saying that
    no backup was found because no snapshot is shared, when the two
    sides share none; and a record saying that the backup is too old,
    with the time the anchor was created at, when that time is before
    now less thirty hours. Each record names the image, and the three
    messages are told apart by their words. An anchor of exactly that
    age or younger gives no record. *)
Theorem check_img_freshness rbd bck w live_snaps :
  live w !! rbd = Some live_snaps →
  datetime_ok (clock w - 30 * hour) = true →
  (backup w !! bck_dest bck = None →
     fst (Check.check_img rbd bck w)
     = Ok (Some {| image := rbd;
                   msg := "No backup found for " +:+ rbd +:+ " (image does not exists)" |})) ∧
  (∀ backup_snaps,
     backup w !! bck_dest bck = Some backup_snaps →
     Driver.last_shared live_snaps backup_snaps = None →
     fst (Check.check_img rbd bck w)
     = Ok (Some {| image := rbd;
                   msg := "No backup found for " +:+ rbd +:+ " (no shared snap)" |})) ∧
  (∀ backup_snaps anchor tag profile digits stamp t,
     backup w !! bck_dest bck = Some backup_snaps →
     Driver.last_shared live_snaps backup_snaps = Some anchor →
     split semicolon anchor = [tag; profile; digits; stamp] →
     dateutil_parse stamp = Ok (naive t) →
     fst (Check.check_img rbd bck w) =
       Ok (if bool_decide (t < clock w - 30 * hour)
           then Some {| image := rbd;
                        msg := "Backup found for " +:+ rbd +:+ ", yet too old (created at "
                               +:+ str_datetime (naive t) +:+ ")" |}
           else None)).
Proof.
  intros Hlive Hclock. unfold Check.check_img.
  split; [|split].
  - intros Hb. erewrite try_except_ok; [done|].
    erewrite bind_ok by apply backup_exists_run.
    rewrite Hb, bool_decide_false by (by intros [? ?]). done.
  - intros backup_snaps Hb Hnone. erewrite try_except_ok; [done|].
    erewrite bind_ok by apply backup_exists_run.
    rewrite Hb, bool_decide_true by done. cbn [negb].
    erewrite bind_ok by (by apply get_last_shared_snap_run).
    by rewrite Hnone.
  - intros backup_snaps anchor tag profile digits stamp t Hb Hsome Hsplit Hparse.
    erewrite try_except_ok; [done|].
    erewrite bind_ok by apply backup_exists_run.
    rewrite Hb, bool_decide_true by done. cbn [negb].
    erewrite bind_ok by (by apply get_last_shared_snap_run).
    rewrite Hsome, Hsplit.
    change (py_index [tag; profile; digits; stamp] 3) with (Ok stamp).
    rewrite bind_lift_ok, Hparse, bind_lift_ok.
    unfold bind, lift, now, sub, add, lt, ret. simpl.
    change (1 * day + 6 * hour) with (30 * hour).
    replace (clock w + - (30 * hour)) with (clock w - 30 * hour) by lia.
    rewrite Hclock. simpl.
    case_bool_decide; destruct (Z.ltb_spec t (clock w - 30 * hour)); (done || lia).
Qed.

End CheckFacts.

(** The first disk of the demonstration machine, whose anchor is ten
    days old: the check reports it as too old, with the date of the
    anchor. *)
Lemma check_img_freshness_witness :
  let anchor := "backup;daily;7;2024-03-10T00:00:00" in
  let w := Demo.stored [anchor; "backup;daily;7;2024-03-11T00:00:00"] [anchor] Demo.march_20 in
  fst (@Check.check_img Demo.demo "vm-100-disk-0" Demo.bck0 w)
  = Ok (Some {| image := "vm-100-disk-0";
                msg := "Backup found for vm-100-disk-0, yet too old (created at 2024-03-10 00:00:00)" |}).
Proof.
  intros anchor w.
  destruct (@check_img_freshness Demo.demo "vm-100-disk-0" Demo.bck0 w
              [anchor; "backup;daily;7;2024-03-11T00:00:00"]) as (_ & _ & Hstale).
  - reflexivity.
  - vm_compute. reflexivity.
  - rewrite (Hstale [anchor] anchor "backup" "daily" "7" "2024-03-10T00:00:00" Demo.march_10).
    + vm_compute. reflexivity.
    + reflexivity.
    + vm_compute. reflexivity.
    + reflexivity.
    + vm_compute. reflexivity.
Defined.


(** ** Expiration on the live side *)

Section AnchorFacts.

Lemma pop_last (l : list string) :
  match pop l with
  | Ok (s, _) => Some s
  | Raise _ => None
  end = last l.
Proof. unfold pop. by destruct (last l). Qed.



Lemma last_shared_None live_snaps backup_snaps :
  Driver.last_shared live_snaps backup_snaps = None ↔
  ∀ s, s ∈ live_snaps → s ∉ backup_snaps.
Proof.
  unfold Driver.last_shared. rewrite last_None. unfold sorted. split.
  - intros E s Hl Hb.
    assert (s ∈ merge_sort String.le
              (elements (list_to_set backup_snaps ∩ list_to_set live_snaps : gset string))) as Hin.
    { rewrite merge_sort_Permutation, elem_of_elements, elem_of_intersection,
        !elem_of_list_to_set. done. }
    rewrite E in Hin. by apply not_elem_of_nil in Hin.
  - intros Hdis. apply elem_of_nil_inv. intros s.
    rewrite merge_sort_Permutation, elem_of_elements, elem_of_intersection,
      !elem_of_list_to_set. intros [Hb Hl]. by apply (Hdis s).
Qed.

End AnchorFacts.

Section LiveExpiryFacts.
Context `{Env}.

Lemma status_put_live m w : live (snd (status_put m w)) = live w.
Proof. reflexivity. Qed.

(** Filing against no anchor: nothing to file, or a [TypeError] at the
    first snapshot. *)
Lemma file_snaps_no_anchor by_profile snaps :
  Backup.file_snaps None by_profile snaps
  = match snaps with [] => Ok by_profile | _ => Raise TypeError end.
Proof. by destruct snaps. Qed.

(** C2, as the program has it. When the live and the backup side of an
    image share no snapshot, live-side expiration deletes none of the
    snapshots of the image, on either side. *)
Theorem expire_item_without_anchor cluster item w :
  (∀ live_snaps backup_snaps s,
     live w !! snd (Backup.target cluster item) = Some live_snaps →
     backup w !! bck_dest (fst (Backup.target cluster item)) = Some backup_snaps →
     s ∈ live_snaps → s ∉ backup_snaps) →
  live (snd (Backup._expire_item cluster item w)) = live w ∧
  backup (snd (Backup._expire_item cluster item w)) = backup w.
Proof.
  intros Hdisjoint.
  enough (∃ r w', Backup._expire_item cluster item w = (r, w') ∧
            live w' = live w ∧ backup w' = backup w) as (r & w' & -> & ? & ?) by done.
  unfold Backup._expire_item.
  destruct (Backup.target cluster item) as [bck rbd] eqn:Ht. simpl in Hdisjoint.
  unfold bind at 1. unfold status_put at 1. cbv beta iota.
  unfold bind at 1. unfold status_put at 1. cbv beta iota.
  unfold bind at 1. unfold Driver.backup_snap at 1. cbn [backup set_status].
  destruct (backup w !! bck_dest bck) as [backups|] eqn:Hb; [|by eauto].
  unfold bind at 1. unfold Driver.snap at 1. cbn [live set_status].
  destruct (live w !! rbd) as [snaps|] eqn:Hl; [|by eauto].
  rewrite pop_last.
  change (last (sorted (elements (list_to_set backups ∩ list_to_set snaps))))
    with (Driver.last_shared snaps backups).
  assert (Driver.last_shared snaps backups = None) as ->
    by (apply last_shared_None; intros s; by apply Hdisjoint).
  rewrite file_snaps_no_anchor. destruct snaps; by eauto.
Qed.

End LiveExpiryFacts.

(** C2, as stated, fails: with a snapshot on the live side and none
    shared with the backup side, [_expire_item] raises a [TypeError]
    where it compares the snapshot with the anchor, and [expire_item]
    logs it as a failure of this image. *)
Lemma expire_item_no_anchor_raises :
  let w := Demo.stored ["backup;daily;7;2024-03-10T00:00:00"] [] Demo.march_20 in
  Driver.last_shared ["backup;daily;7;2024-03-10T00:00:00"] [] = None ∧
  fst (@Backup._expire_item Demo.demo Demo.pve (inr Demo.disk0) w) = Raise TypeError ∧
  log (snd (@BackupProxmox.expire_item Demo.demo Demo.pve Demo.vm100 w))
  = [LogMsg Debug "locking /var/lock/backurne/pve;vm-100-disk-0";
     LogMsg Debug "releasing lock /var/lock/backurne/pve;vm-100-disk-0";
     LogExn Warning TypeError "thrown while expiring live"].
Proof. vm_compute. done. Qed.

(** The same image: its only snapshot is still there afterwards. *)
Lemma expire_item_without_anchor_witness :
  let w := Demo.stored ["backup;daily;7;2024-03-10T00:00:00"] [] Demo.march_20 in
  live (snd (@Backup._expire_item Demo.demo Demo.pve (inr Demo.disk0) w)) !! "vm-100-disk-0"
  = Some ["backup;daily;7;2024-03-10T00:00:00"].
Proof.
  intros w.
  destruct (@expire_item_without_anchor Demo.demo Demo.pve (inr Demo.disk0) w) as [-> _].
  - intros live_snaps backup_snaps s _ Hb. vm_compute in Hb. injection Hb as <-.
    intros _. apply not_elem_of_nil.
  - reflexivity.
Defined.


(** ** Retention on the live side *)

Section ListFacts.








Lemma StronglySorted_filter {A} (R : relation A) (P : A → Prop) `{∀ x, Decision (P x)} l :
  StronglySorted R l → StronglySorted R (filter P l).
Proof.
  induction 1 as [|x l Hl IH Hx]; [constructor|].
  rewrite filter_cons. case_decide; [|done].
  constructor; [done|]. apply Forall_forall. intros y Hy.
  apply list_elem_of_filter in Hy as [_ Hy]. rewrite Forall_forall in Hx. by apply Hx.
Qed.

Lemma StronglySorted_strict_NoDup (l : list string) :
  StronglySorted (strict String.le) l → NoDup l.
Proof.
  induction 1 as [|x l Hl IH Hx]; constructor; [|done].
  intros Hin. rewrite Forall_forall in Hx. destruct (Hx x Hin) as [_ Hn]. by apply Hn.
Qed.


End ListFacts.

Section RetentionFacts.
Context `{Env}.








End RetentionFacts.


(** What is left of that week on the live side. *)
Example expire_item_week :
  live (snd (@Backup._expire_item Demo.demo Demo.pve (inr Demo.disk0)
               (Demo.stored Demo.week ["backup;hourly;24;2024-03-10T12:00:00"] Demo.march_20)))
    !! "vm-100-disk-0"
  = Some [ "backup;daily;7;2024-03-09T00:00:00";
           "backup;daily;7;2024-03-10T00:00:00";
           "backup;hourly;24;2024-03-10T11:00:00";
           "backup;hourly;24;2024-03-10T12:00:00";
           "backup;hourly;24;2024-03-10T13:00:00" ].
Proof. vm_compute. reflexivity. Qed.



(** ** Expiration on the backup side *)

Section BackupExpiryFacts.
Context `{Env}.

(** [is_expired] answers from the name and the clock alone, and writes
    to the log only. *)
Lemma is_expired_frame snap last w0 w :
  clock w = clock w0 →
  ∃ w', Backup.is_expired snap last w = (fst (Backup.is_expired snap last w0), w') ∧
    backup w' = backup w ∧ clock w' = clock w.
Proof.
  intros Hc. unfold Backup.is_expired, bind, lift, ret, now, Log. rewrite Hc.
  repeat case_match; simplify_eq/=; eauto; rewrite Hc in *; try congruence;
    repeat match goal with
           | H1 : ?x = _, H2 : ?x = _ |- _ => rewrite H1 in H2; simplify_eq
           end; eauto.
Qed.

Lemma backup_snap_run image w l :
  backup w !! image = Some l → Driver.backup_snap image w = (Ok l, w).
Proof. intros E. unfold Driver.backup_snap. by rewrite E. Qed.

Lemma backup_rm_snap_run image s w l :
  backup w !! image = Some l →
  Driver.backup_rm_snap image s w
  = (Ok tt, set_backup (<[image := filter (λ x, x ≠ s) l]>) w).
Proof. intros E. unfold Driver.backup_rm_snap. by rewrite E. Qed.

Lemma backup_rm_run image w l :
  backup w !! image = Some l →
  Driver.backup_rm image w = (Ok tt, set_backup (delete image) w).
Proof. intros E. unfold Driver.backup_rm. by rewrite E. Qed.

(** The loop over the snapshots that are not the last: those that are
    expired go. *)
Lemma expire_loop image w0 l :
  ∀ w cur,
    clock w = clock w0 →
    backup w !! image = Some cur →
    (∀ s, s ∈ l → ∃ b, fst (Backup.is_expired s false w0) = Ok b) →
    ∃ w', for_each l (Backup.expire_snap image) w = (Ok tt, w') ∧
      clock w' = clock w0 ∧
      backup w' =
        <[image := filter (λ s, ¬ (s ∈ l ∧ Backup.expired_at w0 s false = true)) cur]>
          (backup w).
Proof.
  induction l as [|s l IH]; intros w cur Hc Hb Hok.
  - exists w. repeat split; try done. rewrite filter_all, insert_id; [done..|].
    intros x _ [Hx _]. by apply not_elem_of_nil in Hx.
  - cbn [for_each]. unfold bind at 1, Backup.expire_snap at 1.
    destruct (is_expired_frame s false w0 w Hc) as (w1 & E1 & Hb1 & Hc1).
    destruct (Hok s (list_elem_of_here _ _)) as [b Hs].
    assert (Hl : ∀ s', s' ∈ l → ∃ b, fst (Backup.is_expired s' false w0) = Ok b)
      by (intros s' Hs'; apply Hok; by apply list_elem_of_further).
    erewrite (bind_ok (Backup.is_expired s false)) by (rewrite E1, Hs; reflexivity).
    destruct b; cbn [negb].
    + erewrite backup_rm_snap_run by (by rewrite Hb1).
      edestruct (IH (set_backup (<[image := filter (λ x, x ≠ s) cur]>) w1))
        as (w' & -> & Hc' & Hb'); [by rewrite <- Hc1 in Hc | apply lookup_insert_eq | done |].
      exists w'. repeat split; try done. rewrite Hb'. simpl.
      rewrite insert_insert_eq, Hb1. f_equal.
      rewrite list_filter_filter. apply filter_agree. intros x _.
      assert (Backup.expired_at w0 s false = true) as Hexp
        by (unfold Backup.expired_at; by rewrite Hs).
      rewrite elem_of_cons. split.
      * intros [Hn Hne] [[->|Hx] Hex]; [done | by apply Hn].
      * intros Hn. split; [intros [Hx Hex]; apply Hn; by split; [right|] |].
        intros ->. apply Hn. by split; [left|].
    + unfold ret at 1.
      edestruct (IH w1 cur) as (w' & -> & Hc' & Hb'); [congruence | by rewrite Hb1 | done |].
      exists w'. repeat split; try done. rewrite Hb', Hb1. f_equal.
      apply filter_agree. intros x _.
      assert (Backup.expired_at w0 s false = false) as Hexp
        by (unfold Backup.expired_at; by rewrite Hs).
      rewrite elem_of_cons. split.
      * intros Hn [[->|Hx] Hex]; [congruence | by apply Hn].
      * intros Hn [Hx Hex]. apply Hn. by split; [right|].
Qed.

(** What the part under the lock leaves on the backup cluster. *)
Lemma expire_locked_run image w0 w snaps :
  clock w = clock w0 →
  backup w !! image = Some snaps →
  NoDup snaps →
  (∀ s l, s ∈ snaps → ∃ b, fst (Backup.is_expired s l w0) = Ok b) →
  ∃ w', Backup.expire_locked image w = (Ok tt, w') ∧
    match last snaps with
    | None => backup w' = delete image (backup w)
    | Some latest =>
        let kept := filter (λ s, Backup.expired_at w0 s false = false) (removelast snaps) in
        backup w' =
          if bool_decide (kept = []) then
            if Backup.expired_at w0 latest true then delete image (backup w)
            else <[image := [latest]]> (backup w)
          else <[image := kept ++ [latest]]> (backup w)
    end.
Proof.
  intros Hc Hb Hnd Hok. unfold Backup.expire_locked.
  erewrite bind_ok by (by apply backup_snap_run). unfold pop.
  destruct (last snaps) as [latest|] eqn:Hlast.
  2: { erewrite backup_rm_run by done. by eauto. }
  apply last_Some in Hlast as [rest ->]. rewrite removelast_last.
  apply NoDup_app in Hnd as (_ & Hdis & _).
  assert (Hlatest : latest ∉ rest)
    by (intros Hin; apply (Hdis _ Hin), list_elem_of_here).
  destruct (expire_loop image w0 rest w (rest ++ [latest]) Hc Hb)
    as (w1 & E1 & Hc1 & Hb1).
  { intros s Hs. apply Hok, elem_of_app. by left. }
  erewrite bind_ok by exact E1.
  set (kept := filter (λ s, Backup.expired_at w0 s false = false) rest).
  assert (Hcur : filter (λ s, ¬ (s ∈ rest ∧ Backup.expired_at w0 s false = true))
                   (rest ++ [latest]) = kept ++ [latest]).
  { rewrite filter_app. f_equal.
    - apply filter_agree. intros x Hx. split.
      + intros Hn. destruct (Backup.expired_at w0 x false); [|done]. exfalso. by apply Hn.
      + intros Hf [_ Ht]. congruence.
    - rewrite filter_cons_True; [done|]. by intros [Hin _]. }
  rewrite Hcur in Hb1.
  assert (Hb1' : backup w1 !! image = Some (kept ++ [latest]))
    by (rewrite Hb1; apply lookup_insert_eq).
  erewrite bind_ok by (by apply backup_snap_run).
  destruct (is_expired_frame latest true w0 w1 Hc1) as (w2 & E2 & Hb2 & Hc2).
  destruct (Hok latest true) as [b Hlast]; [apply elem_of_app; right; apply list_elem_of_here|].
  assert (Hexp : Backup.expired_at w0 latest true = b)
    by (unfold Backup.expired_at; rewrite Hlast; by destruct b).
  rewrite Hexp. destruct kept as [|k kept'] eqn:Hkept.
  - rewrite bool_decide_true by done. rewrite bool_decide_true by done.
    cbn [app] in *. unfold bind at 1.
    erewrite (bind_ok (Backup.is_expired latest true)) by (rewrite E2, Hlast; reflexivity).
    destruct b.
    + change (py_index [latest] 0) with (Ok latest). rewrite bind_lift_ok.
      erewrite backup_rm_snap_run by (by rewrite Hb2).
      rewrite filter_cons_False, filter_nil by (by intros Hne).
      erewrite bind_ok by (apply backup_snap_run; simpl; apply lookup_insert_eq).
      rewrite bool_decide_true by done.
      unfold bind at 1, Log at 1.
      erewrite backup_rm_run by (simpl; apply lookup_insert_eq).
      eexists. split; [done|]. simpl.
      by rewrite Hb2, Hb1, !delete_insert_eq.
    + unfold ret at 1.
      erewrite bind_ok by (apply backup_snap_run; by rewrite Hb2).
      rewrite bool_decide_false by done.
      eexists. split; [done|]. by rewrite Hb2, Hb1.
  - rewrite bool_decide_false by (simpl; rewrite length_app; simpl; lia).
    rewrite bool_decide_false by done.
    unfold bind at 1, ret at 1.
    erewrite bind_ok by (by apply backup_snap_run).
    rewrite bool_decide_false by done.
    eexists. split; [done|]. by rewrite Hb1.
Qed.

(** C3, as the program has it. A backup image with its lock free,
    whose listing names no snapshot twice and for each snapshot of
    which [is_expired] has an answer. [expire_backup] sets aside the
    snapshot the driver lists last, whichever it is; deletes every
    other snapshot that is expired; when none of those is left,
    deletes the one set aside too if [is_expired] says so for a last
    snapshot, and then the image; and an image that had no snapshot to
    begin with is deleted. *)
Theorem expire_backup_image image w snaps :
  backup w !! image = Some snaps →
  lock_free (Lock.lock_path image) = true →
  NoDup snaps →
  (∀ s l, s ∈ snaps → ∃ b, fst (Backup.is_expired s l w) = Ok b) →
  let w' := snd (Backup.expire_backup image w) in
  match last snaps with
  | None => backup w' = delete image (backup w)
  | Some latest =>
      let kept := filter (λ s, Backup.expired_at w s false = false) (removelast snaps) in
      backup w' =
        if bool_decide (kept = []) then
          if Backup.expired_at w latest true then delete image (backup w)
          else <[image := [latest]]> (backup w)
        else <[image := kept ++ [latest]]> (backup w)
  end.
Proof.
  intros Hb Hfree Hnd Hok w'.
  destruct (expire_locked_run image w
              (set_log (λ l, l ++ [LogMsg Debug ("locking " +:+ Lock.lock_path image)])
                 (set_status (λ q, q ++ [done_item]) w)) snaps)
    as (w1 & E & Hspec); [done..|].
  assert (Hrun : backup w' = backup w1).
  { unfold w', Backup.expire_backup.
    unfold bind at 1, status_put at 1. cbv beta iota.
    unfold try_except, Lock.with_Lock, bind at 1, Lock.__enter__, bind at 1, Log at 1.
    cbv beta iota. rewrite Hfree. unfold ret at 1. cbv beta iota. rewrite E. done. }
  rewrite Hrun. exact Hspec.
Qed.

End BackupExpiryFacts.

(** A backup image with three daily snapshots, looked at on the 20th:
    the first two are past their seven days and go; the last one is past
    its seven days and the two days of grace, so it goes as well, and the
    image with it. *)
Lemma expire_backup_image_witness :
  let snaps := ["backup;daily;7;2024-03-01T00:00:00";
                "backup;daily;7;2024-03-09T00:00:00";
                "backup;daily;7;2024-03-10T00:00:00"] in
  let w := Demo.stored [] snaps Demo.march_20 in
  backup (snd (@Backup.expire_backup Demo.demo "pve;vm-100-disk-0" w)) !! "pve;vm-100-disk-0"
  = None.
Proof.
  intros snaps w.
  pose proof (@expire_backup_image Demo.demo "pve;vm-100-disk-0" w snaps) as Hspec.
  rewrite Hspec.
  - vm_compute. reflexivity.
  - reflexivity.
  - reflexivity.
  - apply (bool_decide_unpack _). vm_compute. reflexivity.
  - intros s l Hs. revert s Hs. apply Forall_forall.
    repeat (apply Forall_cons; split; [destruct l; eexists; vm_compute; reflexivity|]).
    by apply Forall_nil.
Defined.

(** C3, as stated, fails. The driver lists the snapshot of the 10th
    before the one of the 1st; on the 11th at noon the one of the 1st is
    past its seven days and the one of the 10th is not. The snapshot of
    the 10th is the greatest of the two, yet the one set aside is the
    one listed last: the expired snapshot of the 1st, which is not the
    greatest, stays on the backup cluster. *)
Lemma expire_backup_last_listed :
  let newest := "backup;daily;7;2024-03-10T00:00:00" in
  let oldest := "backup;daily;7;2024-03-01T00:00:00" in
  let w := Demo.stored [] [newest; oldest] (Demo.march_10 + 36 * hour) in
  Spec.max_snap [newest; oldest] = Some newest ∧
  ¬ (∀ s latest left,
       Spec.max_snap [newest; oldest] = Some latest →
       backup (snd (@Backup.expire_backup Demo.demo "pve;vm-100-disk-0" w)) !! "pve;vm-100-disk-0"
         = Some left →
       s ∈ [newest; oldest] → s ≠ latest →
       @Backup.expired_at Demo.demo w s false = true →
       s ∉ left).
Proof.
  intros newest oldest w. split; [vm_compute; reflexivity|].
  intros Hclaim.
  apply (Hclaim oldest newest [newest; oldest]).
  - vm_compute. reflexivity.
  - vm_compute. reflexivity.
  - apply list_elem_of_further, list_elem_of_here.
  - discriminate.
  - vm_compute. reflexivity.
  - apply list_elem_of_further, list_elem_of_here.
Qed.


(** ** Frames: what the building blocks leave alone *)

Section FrameFacts.
Context `{Env}.
Context (R : relation world) `{!PreOrder R}.

Lemma within_ret {A} (a : A) : within R (ret a).
Proof. intros w. simpl. reflexivity. Qed.

Lemma within_raise {A} e : within R (@raise A e).
Proof. intros w. simpl. reflexivity. Qed.

Lemma within_lift {A} (r : res A) : within R (lift r).
Proof. intros w. simpl. reflexivity. Qed.

Lemma within_now : within R now.
Proof. intros w. simpl. reflexivity. Qed.

Lemma within_bind {A B} (c : M A) (k : A → M B) :
  within R c → (∀ a, within R (k a)) → within R (bind c k).
Proof.
  intros Hc Hk w. unfold bind. specialize (Hc w).
  destruct (c w) as [[a|e] w1]; simpl in *; [|done].
  etrans; [exact Hc | apply Hk].
Qed.

Lemma within_try {A} (c : M A) sel h :
  within R c → (∀ e, within R (h e)) → within R (try_except c sel h).
Proof.
  intros Hc Hh w. unfold try_except. specialize (Hc w).
  destruct (c w) as [[a|e] w1]; simpl in *; [done|].
  destruct (sel e); [|done]. etrans; [exact Hc | apply Hh].
Qed.

Lemma within_for_each {A} (l : list A) (body : A → M unit) :
  (∀ x, within R (body x)) → within R (for_each l body).
Proof.
  intros Hb. induction l as [|x l IH]; simpl.
  - apply within_ret.
  - apply within_bind; [apply Hb | intros _; apply IH].
Qed.


(** Where writing to the log is allowed. *)
Hypothesis R_log : ∀ e, within R (Log e).

Lemma within_with_Lock {A} path (body : M A) :
  within R body → within R (Lock.with_Lock path body).
Proof.
  intros Hb. unfold Lock.with_Lock, Lock.__enter__.
  apply within_bind.
  - apply within_bind; [apply R_log | intros _].
    destruct (lock_free _); [apply within_ret | apply within_raise].
  - intros _ w. specialize (Hb w). destruct (body w) as [r w1]. simpl in *.
    etrans; [exact Hb | apply (R_log _ w1)].
Qed.

Lemma within_is_expired snap last : within R (Backup.is_expired snap last).
Proof.
  unfold Backup.is_expired.
  repeat (apply within_bind; [apply within_lift | intros ?]).
  repeat case_decide.
  - repeat (apply within_bind; [apply within_lift | intros ?]).
    apply within_bind.
    { destruct last; [|apply within_ret].
      apply within_bind; [apply within_lift | intros ?; apply within_lift]. }
    intros ?. apply within_bind; [apply within_now | intros ?].
    apply within_bind; [apply within_lift | intros []; apply within_ret].
  - repeat (apply within_bind; [apply within_lift | intros ?]).
    apply within_bind.
    { destruct last; [|apply within_ret].
      apply within_bind; [apply within_lift | intros ?; apply within_lift]. }
    intros ?. apply within_bind; [apply within_now | intros ?].
    apply within_bind; [apply within_lift | intros []; apply within_ret].
  - apply within_bind; [apply R_log | intros _; apply within_ret].
Qed.

End FrameFacts.

(** The relations are preorders. *)

#[global] Instance logs_only_po : PreOrder logs_only.
Proof.
  split.
  - intros w. by repeat split.
  - intros w1 w2 w3 (?&?&?&?&?&?&?) (?&?&?&?&?&?&?). repeat split; congruence.
Qed.

#[global] Instance backup_shrinks_po image : PreOrder (backup_shrinks image).
Proof.
  split.
  - intros w. repeat split; try done. intros l' E. by exists l'.
  - intros w1 w2 w3 (Hl1 & Hc1 & Ho1 & Hi1) (Hl2 & Hc2 & Ho2 & Hi2).
    repeat split; try congruence.
    + intros other Hne. by rewrite Ho2, Ho1.
    + intros l3 E3. destruct (Hi2 l3 E3) as (l2 & E2 & S2).
      destruct (Hi1 l2 E2) as (l1 & E1 & S1). exists l1. split; [done|]. by etrans.
Qed.

#[global] Instance live_shrinks_po image : PreOrder (live_shrinks image).
Proof.
  split.
  - intros w. repeat split; try done. intros l' E. by exists l'.
  - intros w1 w2 w3 (Hl1 & Hc1 & Ho1 & Hi1) (Hl2 & Hc2 & Ho2 & Hi2).
    repeat split; try congruence.
    + intros other Hne. by rewrite Ho2, Ho1.
    + intros l3 E3. destruct (Hi2 l3 E3) as (l2 & E2 & S2).
      destruct (Hi1 l2 E2) as (l1 & E1 & S1). exists l1. split; [done|]. by etrans.
Qed.

#[global] Instance settled_po : PreOrder settled.
Proof.
  split.
  - intros w. exists []. by rewrite app_nil_r.
  - intros w1 w2 w3 (m1 & E1 & B1) (m2 & E2 & B2). exists (m1 ++ m2).
    split; [by rewrite E2, E1, app_assoc|].
    unfold Accounting.balance in *. rewrite !filter_app, !length_app. lia.
Qed.


(** ** Computations that never raise *)

Section ReturnsFacts.
Context `{Env}.

Lemma returns_ret {A} (a : A) : returns (ret a).
Proof. intros w. by exists a. Qed.

Lemma returns_Log e : returns (Log e).
Proof. intros w. by exists tt. Qed.

Lemma returns_bind {A B} (c : M A) (k : A → M B) :
  returns c → (∀ a, returns (k a)) → returns (bind c k).
Proof.
  intros Hc Hk w. unfold bind. destruct (Hc w) as [a Ha].
  destruct (c w) as [[a'|e] w1]; simpl in *; [|done]. apply Hk.
Qed.

(** A handler for every exception that does not raise itself. *)
Lemma returns_try {A} (c : M A) h :
  (∀ e, returns (h e)) → returns (try_except c any_exception h).
Proof.
  intros Hh w. unfold try_except.
  destruct (c w) as [[a|e] w1]; simpl; [by exists a | apply Hh].
Qed.

Lemma returns_for_each {A} (l : list A) (body : A → M unit) :
  (∀ x, returns (body x)) → returns (for_each l body).
Proof.
  intros Hb. induction l as [|x l IH]; simpl.
  - apply returns_ret.
  - apply returns_bind; [apply Hb | intros _; apply IH].
Qed.

End ReturnsFacts.


(** ** More on the expiry rule *)

Section ExpiryMoreFacts.
Context `{Env}.

Lemma timedelta_inv d x : timedelta d = Ok x → x = d.
Proof. unfold timedelta. case_match; congruence. Qed.

Lemma add_inv a d b : add a d = Ok b → us b = us a + d ∧ tzinfo b = tzinfo a.
Proof. unfold add. case_match; [|done]. by intros [= <-]. Qed.



(** X2. The grace of the last snapshot only postpones: with a grace that
    is not negative, a snapshot that is expired as the last one of its
    image is expired as any other one too. *)
Theorem is_expired_grace snap w :
  0 ≤ extra_retention_time config →
  fst (Backup.is_expired snap true w) = Ok true →
  fst (Backup.is_expired snap false w) = Ok true.
Proof.
  intros Hpos E. revert E. unfold Backup.is_expired, bind, lift, ret, now, Log.
  repeat case_match; simplify_eq/=; try done;
    repeat match goal with
           | H1 : ?x = _, H2 : ?x = _ |- _ => rewrite H1 in H2; simplify_eq
           end;
    repeat match goal with
           | H : timedelta_days _ = Ok _ |- _ => apply timedelta_inv in H; subst
           | H : timedelta_hours _ = Ok _ |- _ => apply timedelta_inv in H; subst
           | H : add _ _ = Ok _ |- _ => apply add_inv in H as [? ?]
           end;
    unfold gt, lt in *; simpl in *;
    repeat case_match; simplify_eq/=; try done;
    repeat match goal with
           | H : (_ <? _) = false |- _ => apply Z.ltb_ge in H
           | H : (_ <? _) = true |- _ => apply Z.ltb_lt in H
           end;
    try congruence; unfold day in *; nia.
Qed.

Lemma py_index_short {A} (l : list A) (i : Z) :
  i < 0 → Z.of_nat (length l) < - i → py_index l i = Raise IndexError.
Proof.
  intros Hi Hl. unfold py_index.
  destruct (Z.ltb_spec i 0); [|lia].
  destruct (Z.ltb_spec (i + Z.of_nat (length l)) 0); [done|lia].
Qed.

(** X3. A name with fewer than three fields has no profile to read:
    [is_expired] raises, and nothing is written. *)
Theorem is_expired_short_name snap last w :
  (length (split semicolon snap) < 3)%nat →
  ∃ e, Backup.is_expired snap last w = (Raise e, w).
Proof.
  intros Hlen. unfold Backup.is_expired.
  unfold bind at 1, lift at 1.
  destruct (py_index (split semicolon snap) (-1)) as [stamp|e]; [|by eauto].
  unfold bind at 1, lift at 1.
  destruct (dateutil_parse stamp) as [created_at|e]; [|by eauto].
  unfold bind at 1, lift at 1.
  rewrite py_index_short by lia. by eauto.
Qed.

End ExpiryMoreFacts.


(** The same snapshot as the last one of its image: the two days of
    grace are over on the 20th. *)
Lemma is_expired_grace_witness :
  fst (@Backup.is_expired Demo.demo "backup;daily;7;2024-03-10T00:00:00" false
         (Demo.empty_world Demo.march_20))
  = Ok true.
Proof.
  apply (@is_expired_grace Demo.demo).
  - vm_compute. discriminate.
  - vm_compute. reflexivity.
Defined.

(** A name of two fields. *)
Lemma is_expired_short_name_witness :
  ∃ e, @Backup.is_expired Demo.demo "backup;2024-03-10T00:00:00" false
         (Demo.empty_world Demo.march_20)
       = (Raise e, Demo.empty_world Demo.march_20).
Proof.
  apply (@is_expired_short_name Demo.demo). vm_compute. lia.
Defined.


(** ** More on expiration on the backup side *)

Section BackupExpiryMoreFacts.
Context `{Env}.

Lemma backup_shrinks_log image e : within (backup_shrinks image) (Log e).
Proof. intros w. simpl. repeat split; try done. intros l' E. by exists l'. Qed.

Lemma backup_shrinks_status image m : within (backup_shrinks image) (status_put m).
Proof. intros w. simpl. repeat split; try done. intros l' E. by exists l'. Qed.

Lemma backup_shrinks_snap image : within (backup_shrinks image) (Driver.backup_snap image).
Proof. intros w. unfold Driver.backup_snap. case_match; simpl; reflexivity. Qed.

Lemma backup_shrinks_rm_snap image s : within (backup_shrinks image) (Driver.backup_rm_snap image s).
Proof.
  intros w. unfold Driver.backup_rm_snap.
  destruct (backup w !! image) as [l|] eqn:E; simpl; [|reflexivity].
  repeat split; try done.
  - intros other Hne. simpl. by apply lookup_insert_ne.
  - intros l'. simpl. rewrite lookup_insert_eq. intros [= <-]. exists l. split; [done|].
    intros x Hx. by apply list_elem_of_filter in Hx as [_ ?].
Qed.

Lemma backup_shrinks_rm image : within (backup_shrinks image) (Driver.backup_rm image).
Proof.
  intros w. unfold Driver.backup_rm.
  destruct (backup w !! image) as [l|] eqn:E; simpl; [|reflexivity].
  repeat split; try done.
  - intros other Hne. simpl. by apply lookup_delete_ne.
  - intros l'. simpl. by rewrite lookup_delete_eq.
Qed.

Lemma backup_shrinks_locked image : within (backup_shrinks image) (Backup.expire_locked image).
Proof.
  pose proof (backup_shrinks_log image) as Hlog.
  unfold Backup.expire_locked.
  apply within_bind; [apply _ | apply backup_shrinks_snap | intros snaps].
  destruct (pop snaps) as [[latest rest]|e]; [|apply backup_shrinks_rm].
  apply within_bind; [apply _ | | intros _].
  { apply within_for_each; [apply _|]. intros s. unfold Backup.expire_snap.
    apply within_bind; [apply _ | by apply within_is_expired; [apply _|] | intros b].
    destruct (negb b); [by apply within_ret; apply _ | apply backup_shrinks_rm_snap]. }
  apply within_bind; [apply _ | apply backup_shrinks_snap | intros snaps'].
  apply within_bind; [apply _ | | intros _].
  { case_bool_decide; [|by apply within_ret; apply _].
    apply within_bind; [apply _ | by apply within_is_expired; [apply _|] | intros b].
    destruct b; [|by apply within_ret; apply _].
    apply within_bind; [apply _ | by apply within_lift; apply _ | intros only].
    apply backup_shrinks_rm_snap. }
  apply within_bind; [apply _ | apply backup_shrinks_snap | intros remaining].
  case_bool_decide; [|by apply within_ret; apply _].
  apply within_bind; [apply _ | apply Hlog | intros _; apply backup_shrinks_rm].
Qed.

Lemma same_status_locked image w :
  status_queue (snd (Lock.with_Lock image (Backup.expire_locked image) w)) = status_queue w.
Proof.
  set (R := λ w w' : world, status_queue w' = status_queue w).
  assert (PreOrder R) by (split; [by intros ? | intros ? ? ? ? ?; unfold R in *; congruence]).
  assert (Hlog : ∀ e, within R (Log e)) by (by intros e w0).
  assert (Hsnap : within R (Driver.backup_snap image)).
  { intros w0. unfold Driver.backup_snap. by case_match. }
  assert (Hrm : within R (Driver.backup_rm image)).
  { intros w0. unfold Driver.backup_rm. by case_match. }
  assert (Hrms : ∀ s, within R (Driver.backup_rm_snap image s)).
  { intros s w0. unfold Driver.backup_rm_snap. by case_match. }
  apply (within_with_Lock R Hlog). unfold Backup.expire_locked.
  apply within_bind; [apply _ | apply Hsnap | intros snaps].
  destruct (pop snaps) as [[latest rest]|e]; [|apply Hrm].
  apply within_bind; [apply _ | | intros _].
  { apply within_for_each; [apply _|]. intros s. unfold Backup.expire_snap.
    apply within_bind; [apply _ | by apply within_is_expired; [apply _|] | intros b].
    destruct (negb b); [by apply within_ret; apply _ | apply Hrms]. }
  apply within_bind; [apply _ | apply Hsnap | intros snaps'].
  apply within_bind; [apply _ | | intros _].
  { case_bool_decide; [|by apply within_ret; apply _].
    apply within_bind; [apply _ | by apply within_is_expired; [apply _|] | intros b].
    destruct b; [|by apply within_ret; apply _].
    apply within_bind; [apply _ | by apply within_lift; apply _ | intros only].
    apply Hrms. }
  apply within_bind; [apply _ | apply Hsnap | intros remaining].
  case_bool_decide; [|by apply within_ret; apply _].
  apply within_bind; [apply _ | apply Hlog | intros _; apply Hrm].
Qed.

(** What a run of [expire_backup] does to the rest of the world. *)
Lemma expire_backup_run image w :
  ∃ w', Backup.expire_backup image w = (Ok tt, w') ∧
    status_queue w' = status_queue w ++ [done_item] ∧
    backup_shrinks image w w'.
Proof.
  pose proof (backup_shrinks_log image) as Hlog.
  unfold Backup.expire_backup, bind at 1, status_put at 1. cbv beta iota.
  set (w0 := set_status (λ q, q ++ [done_item]) w).
  pose proof (same_status_locked image w0) as Hs.
  pose proof (within_with_Lock (backup_shrinks image) Hlog image _
                (backup_shrinks_locked image) w0) as Hb.
  assert (H0 : backup_shrinks image w w0).
  { repeat split; try done. intros l' E. by exists l'. }
  unfold try_except.
  destruct (Lock.with_Lock image (Backup.expire_locked image) w0) as [[[]|e] w1]; simpl in *.
  - exists w1. split; [done|]. split; [by rewrite Hs | by etrans].
  - destruct (is_timeout e); simpl.
    + exists w1. split; [done|]. split; [by rewrite Hs | by etrans].
    + eexists. split; [done|]. simpl. split; [by rewrite Hs|].
      etrans; [exact H0|]. etrans; [exact Hb|]. apply Hlog.
Qed.

(** X4. [expire_backup] never raises, answers its image with one
    [done_item], and on the backup cluster leaves every other image as
    it is: all it can do is remove snapshots of its image, or the
    image. The live cluster is not touched. *)
Theorem expire_backup_frame image w :
  ∃ w', Backup.expire_backup image w = (Ok tt, w') ∧
    status_queue w' = status_queue w ++ [done_item] ∧
    live w' = live w ∧
    (∀ other, other ≠ image → backup w' !! other = backup w !! other) ∧
    (∀ l', backup w' !! image = Some l' → ∃ l, backup w !! image = Some l ∧ l' ⊆ l).
Proof.
  destruct (expire_backup_run image w) as (w' & E & Hs & Hl & _ & Ho & Hi).
  exists w'. by repeat split.
Qed.

(** X5. An image somebody else holds the lock of is left for this
    round: [expire_backup] reports it done, deletes nothing and logs no
    warning. *)
Theorem expire_backup_contended image w :
  lock_free (Lock.lock_path image) = false →
  Backup.expire_backup image w =
    (Ok tt,
     set_log (λ l, l ++ [LogMsg Debug ("locking " +:+ Lock.lock_path image)])
       (set_status (λ q, q ++ [done_item]) w)).
Proof.
  intros Hbusy. unfold Backup.expire_backup, bind at 1, status_put at 1. cbv beta iota.
  unfold try_except, Lock.with_Lock, bind at 1, Lock.__enter__, bind at 1, Log at 1.
  cbv beta iota. by rewrite Hbusy.
Qed.

Lemma adds_loop (images : list string) w :
  ∃ w', for_each images (λ _, status_put add_item) w = (Ok tt, w') ∧
    status_queue w' = status_queue w ++ replicate (length images) add_item.
Proof.
  revert w. induction images as [|i images IH]; intros w; simpl.
  - exists w. by rewrite app_nil_r.
  - unfold bind at 1, status_put at 1.
    destruct (IH (set_status (λ q, q ++ [add_item]) w)) as (w' & -> & Hs).
    exists w'. split; [done|]. rewrite Hs. simpl. by rewrite <- app_assoc.
Qed.

Lemma dones_loop (images : list string) w :
  ∃ w', for_each images Backup.expire_backup w = (Ok tt, w') ∧
    status_queue w' = status_queue w ++ replicate (length images) done_item.
Proof.
  revert w. induction images as [|i images IH]; intros w; simpl.
  - exists w. by rewrite app_nil_r.
  - unfold bind at 1.
    destruct (expire_backup_run i w) as (w1 & -> & Hs1 & _).
    destruct (IH w1) as (w' & -> & Hs).
    exists w'. split; [done|]. rewrite Hs, Hs1. simpl. by rewrite <- app_assoc.
Qed.

Lemma balance_replicate n :
  Accounting.balance (replicate n add_item ++ replicate n done_item) = 0.
Proof.
  unfold Accounting.balance. rewrite !filter_app, !length_app.
  induction n as [|n IH]; [done|]. simpl.
  rewrite !filter_cons. repeat case_decide; simplify_eq; simpl in *; lia.
Qed.

(** X6. The phase of [main] that expires the backup cluster leaves no
    item open: with at least one worker it never raises, and every
    image is counted once and answered once. *)
Theorem expire_backup_phase_settled images w :
  1 ≤ backup_worker config →
  ∃ w', Main.expire_backup images w = (Ok tt, w') ∧
    status_queue w' =
      status_queue w ++ replicate (length images) add_item
                     ++ replicate (length images) done_item ∧
    ∀ c, Real_updater.todo (Real_updater.__work__ c
           (replicate (length images) add_item ++ replicate (length images) done_item))
         = Real_updater.todo c.
Proof.
  intros Hworkers. unfold Main.expire_backup, bind at 1.
  destruct (adds_loop images w) as (w1 & -> & Hs1).
  unfold bind at 1, Pool. destruct (Z.ltb_spec (backup_worker config) 1); [lia|].
  unfold ret at 1. cbv beta iota.
  destruct (dones_loop images w1) as (w' & -> & Hs).
  exists w'. split; [done|]. split; [by rewrite Hs, Hs1, <- app_assoc|].
  intros c. rewrite work_todo, balance_replicate. lia.
Qed.

End BackupExpiryMoreFacts.

(** With the lock files taken, the three snapshots of the image stay. *)
Lemma expire_backup_contended_witness :
  let snaps := ["backup;daily;7;2024-03-01T00:00:00";
                "backup;daily;7;2024-03-09T00:00:00";
                "backup;daily;7;2024-03-10T00:00:00"] in
  let w := Demo.stored [] snaps Demo.march_20 in
  backup (snd (@Backup.expire_backup Demo.contended "pve;vm-100-disk-0" w)) = backup w.
Proof.
  intros snaps w.
  rewrite (@expire_backup_contended Demo.contended "pve;vm-100-disk-0" w); reflexivity.
Defined.

(** Two images and two workers. *)
Lemma expire_backup_phase_settled_witness :
  ∃ w', @Main.expire_backup Demo.demo ["pve;vm-100-disk-0"; "pve;vm-100-disk-1"]
          (Demo.stored [] [] Demo.march_20) = (Ok tt, w') ∧
    status_queue w' = [add_item; add_item; done_item; done_item].
Proof.
  destruct (@expire_backup_phase_settled Demo.demo ["pve;vm-100-disk-0"; "pve;vm-100-disk-1"]
              (Demo.stored [] [] Demo.march_20)) as (w' & E & Hs & _).
  - vm_compute. discriminate.
  - exists w'. split; [exact E | exact Hs].
Defined.


(** ** More on the producer *)

Section ProducerMoreFacts.
Context `{Env}.

(** X7. When [_create_snap] raises, the exception is not a lock
    timeout and nothing was put on the queue: the jobs of the
    snapshots it had taken before the failure are never handed to the
    consumers. *)
Theorem create_snap_failure_drops_jobs bck profiles w e :
  fst (Backup._create_snap bck profiles w) = Raise e →
  is_timeout e = false ∧
  queue (snd (Backup._create_snap bck profiles w)) = queue w.
Proof.
  unfold Backup._create_snap, Lock.__enter__, Lock.__exit__, bind, Log, ret, raise.
  destruct (lock_free _); simpl.
  - match goal with |- context [Backup.snapshots bck profiles [] ?w1] =>
      destruct (snapshots_loop bck profiles [] w1)
        as (todo & r & w' & considered & E & Hq & _)
    end.
    rewrite E. simpl in *. destruct r as [[]|e0]; simpl.
    + case_bool_decide; simpl; done.
    + destruct (is_timeout e0) eqn:Ht; simpl; [case_bool_decide; simpl; done|].
      intros [= <-]. done.
  - done.
Qed.

(** The loop of [list]: the machines that are not skipped, in the
    order of the listing. *)
Lemma keep_all_filter cluster all w :
  ∃ w', BackupProxmox.keep_all cluster all w
        = (Ok (filter (λ vm, ¬ (smbios vm = None ∧ use_smbios cluster = true
                                ∧ uuid_fallback config = false)) all), w').
Proof.
  revert w. induction all as [|vm all IH]; intros w; simpl; [by eauto|].
  unfold bind at 1, BackupProxmox.keep. rewrite filter_cons.
  destruct (bool_decide (smbios vm = None) && use_smbios cluster
            && negb (uuid_fallback config)) eqn:Hskip.
  - apply andb_prop in Hskip as [Hskip Hf]. apply andb_prop in Hskip as [Hs Hu].
    apply bool_decide_eq_true in Hs. apply negb_true_iff in Hf.
    unfold bind at 1, Log at 1. unfold ret at 1. unfold bind at 1.
    match goal with |- context [BackupProxmox.keep_all cluster all ?w1] =>
      destruct (IH w1) as (w' & ->) end.
    rewrite decide_False by (by intros Hn; apply Hn). by eauto.
  - unfold ret at 1. unfold bind at 1. destruct (IH w) as (w' & ->).
    rewrite decide_True; [by eauto|].
    intros (Hs & Hu & Hf). rewrite bool_decide_true, Hu, Hf in Hskip by done. done.
Qed.

(** X8. When the hypervisor answers, [list] gives its machines in the
    order it lists them, less those without smbios when the cluster
    asks for one and [uuid_fallback] is off. *)
Theorem list_skips_without_smbios cluster all w :
  Proxmox cluster = Ok tt →
  vms cluster = Ok all →
  fst (BackupProxmox.list cluster w)
  = Ok (filter (λ vm, ¬ (smbios vm = None ∧ use_smbios cluster = true
                         ∧ uuid_fallback config = false)) all).
Proof.
  intros Hpx Hvms. unfold BackupProxmox.list, try_except, bind at 1, lift.
  rewrite Hpx. cbv beta iota. unfold bind at 1. rewrite Hvms. cbv beta iota.
  destruct (keep_all_filter cluster all w) as (w' & ->). done.
Qed.

(** X9. A machine that can be frozen and for the disks of which every
    call of the driver answers is frozen once and thawed once, in that
    order, whether or not the locks of its disks are free. *)
Theorem create_snap_thaws cluster vm (fetched : disk → dict profile) w :
  Proxmox cluster = Ok tt →
  freeze vm = Ok tt →
  (∀ d bck w0, (d, bck) ∈ to_backup vm →
     fst (BackupProxmox.__fetch_profiles cluster vm d w0) = Ok (fetched d)) →
  (∀ d bck item, (d, bck) ∈ to_backup vm → item ∈ fetched d → Jobs.answers bck item) →
  px (snd (BackupProxmox.create_snap cluster vm w)) = px w ++ [Freeze vm; Thaw vm].
Proof.
  intros Hpx Hfreeze Hfetch Hans.
  unfold BackupProxmox.create_snap, try_except, bind at 1, lift.
  rewrite Hpx. cbv beta iota.
  unfold bind at 1, BackupProxmox.px_freeze. rewrite Hfreeze. cbv beta iota.
  unfold bind at 1.
  match goal with |- context [for_each _ _ ?w1] =>
    destruct (disks_answers cluster vm fetched (to_backup vm) w1 Hfetch Hans) as (w' & E & _);
    destruct (disks_loop cluster vm (to_backup vm) w1) as (r & w'' & ? & ? & E' & Hp & _)
  end.
  rewrite E in E'. injection E' as <- <-. rewrite E.
  unfold BackupProxmox.px_thaw. destruct (thaw vm) as [[]|e]; simpl;
    rewrite Hp; simpl; by rewrite <- app_assoc.
Qed.

Lemma returns_list cluster : returns (BackupProxmox.list cluster).
Proof.
  unfold BackupProxmox.list. apply returns_try. intros e.
  apply returns_bind; [apply returns_Log | intros _; apply returns_ret].
Qed.

Lemma returns_create_snap cluster vm : returns (BackupProxmox.create_snap cluster vm).
Proof. unfold BackupProxmox.create_snap. apply returns_try. intros e. apply returns_Log. Qed.

(** X10. With hypervisor clusters only and at least one worker,
    [Producer.__work__] never raises: whatever the hypervisor and the
    drivers answer is caught and logged on the way. The producer then
    always gets to send its end markers. *)
Theorem work_returns_proxmox w :
  (∀ cluster, cluster ∈ live_clusters config → cluster_type cluster = "proxmox") →
  1 ≤ live_worker config →
  ∃ w', Producer.__work__ w = (Ok tt, w').
Proof.
  intros Hpx Hworkers.
  assert (Hret : returns Producer.__work__).
  { unfold Producer.__work__. generalize (live_clusters config) Hpx.
    intros clusters Hall. induction clusters as [|cluster clusters IH]; simpl.
    - apply returns_ret.
    - apply returns_bind; [|intros _; apply IH; intros c Hc; apply Hall; by right].
      apply returns_bind; [apply returns_Log | intros _].
      rewrite decide_True by (apply Hall; by left).
      unfold BackupProxmox.create_snaps.
      apply returns_bind; [apply returns_list | intros items].
      apply returns_bind.
      + unfold Pool. destruct (Z.ltb_spec (live_worker config) 1); [lia|]. apply returns_ret.
      + intros _. apply returns_for_each. intros vm. apply returns_create_snap. }
  destruct (Hret w) as [[] E].
  destruct (Producer.__work__ w) as [r w']. simpl in E. subst r. by exists w'.
Qed.

(** X11. [Producer.__call__] never raises. When [__work__] raises, the
    error is logged and no end marker is put on the queue: the
    consumers, which leave their loop on an end marker only, are left
    waiting. *)
Theorem call_without_ends w e :
  fst (Producer.__work__ (snd (Log (LogMsg Debug "Producer started") w))) = Raise e →
  ∃ w' batches,
    Producer.__call__ w = (Ok tt, w') ∧
    queue w' = queue w ++ (Some <$> batches) ∧
    LogExn Error e "" ∈ log w'.
Proof.
  intros E. unfold Producer.__call__. unfold bind at 1.
  change (Log (LogMsg Debug "Producer started") w)
    with (Ok tt, snd (Log (LogMsg Debug "Producer started") w)).
  cbv beta iota. unfold bind at 1. unfold try_except at 1. unfold bind at 1.
  destruct (adds_batches_work (snd (Log (LogMsg Debug "Producer started") w)))
    as [batches Hq].
  destruct (Producer.__work__ (snd (Log (LogMsg Debug "Producer started") w)))
    as [r w1]. simpl in E, Hq. subst r. cbv beta iota. simpl.
  eexists _, batches. split; [done|]. simpl. split; [done|].
  apply elem_of_app. left. apply elem_of_app. right. apply list_elem_of_here.
Qed.

End ProducerMoreFacts.

(** The daily snapshot of the first disk is taken, the hourly one fails:
    the job of the daily snapshot never reaches the queue. *)
Lemma create_snap_failure_drops_jobs_witness :
  queue (snd (@Backup._create_snap Outage.half Demo.bck0 (profiles Demo.demo_config)
                (Demo.empty_world Demo.march_10)))
  = [].
Proof.
  apply (@create_snap_failure_drops_jobs Outage.half Demo.bck0 (profiles Demo.demo_config)
           (Demo.empty_world Demo.march_10) (Failure "rbd: creating snapshot failed")).
  vm_compute. reflexivity.
Defined.

(** A cluster that asks for smbios: the machine without one is left
    out. *)
Lemma list_skips_without_smbios_witness :
  fst (@BackupProxmox.list Outage.two_vms Outage.strict_pve (Demo.empty_world Demo.march_10))
  = Ok [Outage.vm101].
Proof.
  rewrite (@list_skips_without_smbios Outage.two_vms Outage.strict_pve
             [Demo.vm100; Outage.vm101]); [|reflexivity..].
  vm_compute. reflexivity.
Defined.

(** The demonstration machine, with its locks free and with its locks
    held. *)
Lemma create_snap_thaws_witness :
  px (snd (@BackupProxmox.create_snap Demo.contended Demo.pve Demo.vm100
             (Demo.empty_world Demo.march_10)))
  = [Freeze Demo.vm100; Thaw Demo.vm100].
Proof.
  apply (@create_snap_thaws Demo.contended Demo.pve Demo.vm100 (λ _, profiles Demo.demo_config)).
  - reflexivity.
  - reflexivity.
  - intros d bck w0 _. reflexivity.
  - intros d bck item _. revert item. apply Forall_forall.
    repeat (apply Forall_cons; split; [eexists _, _; split; reflexivity|]).
    by apply Forall_nil.
Defined.

Lemma work_returns_proxmox_witness :
  ∃ w', @Producer.__work__ Demo.demo (Demo.empty_world Demo.march_10) = (Ok tt, w').
Proof.
  apply (@work_returns_proxmox Demo.demo).
  - intros cluster Hin. apply list_elem_of_singleton in Hin as ->. reflexivity.
  - vm_compute. discriminate.
Defined.

(** A plain cluster that cannot be listed: the producer logs the error
    and leaves the queue empty. *)
Lemma call_without_ends_witness :
  ∃ w', @Producer.__call__ Outage.unreachable (Demo.empty_world Demo.march_10) = (Ok tt, w') ∧
    queue w' = [].
Proof.
  destruct (@call_without_ends Outage.unreachable (Demo.empty_world Demo.march_10)
              (Failure "rbd: cannot reach the cluster")) as (w' & batches & E & Hq & _).
  - vm_compute. reflexivity.
  - exists w'. split; [exact E|].
    assert (w' = snd (@Producer.__call__ Outage.unreachable (Demo.empty_world Demo.march_10)))
      as -> by (by rewrite E).
    vm_compute. reflexivity.
Defined.


(** ** More on expiration on the live side *)

Section LiveExpiryMoreFacts.
Context `{Env}.

Lemma live_shrinks_log image e : within (live_shrinks image) (Log e).
Proof. intros w. simpl. repeat split; try done. intros l' E. by exists l'. Qed.

Lemma live_shrinks_status image m : within (live_shrinks image) (status_put m).
Proof. intros w. simpl. repeat split; try done. intros l' E. by exists l'. Qed.

Lemma live_shrinks_snap image rbd : within (live_shrinks image) (Driver.snap rbd).
Proof. intros w. unfold Driver.snap. case_match; simpl; reflexivity. Qed.

Lemma live_shrinks_backup_snap image dest :
  within (live_shrinks image) (Driver.backup_snap dest).
Proof. intros w. unfold Driver.backup_snap. case_match; simpl; reflexivity. Qed.

Lemma live_shrinks_rm_snap image s : within (live_shrinks image) (Driver.rm_snap image s).
Proof.
  intros w. unfold Driver.rm_snap.
  destruct (live w !! image) as [l|] eqn:E; simpl; [|reflexivity].
  repeat split; try done.
  - intros other Hne. simpl. by apply lookup_insert_ne.
  - intros l'. simpl. rewrite lookup_insert_eq. intros [= <-]. exists l. split; [done|].
    intros x Hx. by apply list_elem_of_filter in Hx as [_ ?].
Qed.

Lemma live_shrinks_expire_item cluster item :
  within (live_shrinks (Backup.target cluster item).2) (Backup._expire_item cluster item).
Proof.
  unfold Backup._expire_item.
  apply within_bind; [apply _ | apply live_shrinks_status | intros _].
  apply within_bind; [apply _ | apply live_shrinks_status | intros _].
  destruct (Backup.target cluster item) as [bck rbd]. simpl.
  apply within_bind; [apply _ | apply live_shrinks_backup_snap | intros backups].
  apply within_bind; [apply _ | apply live_shrinks_snap | intros snaps].
  apply within_bind; [apply _ | by apply within_lift; apply _ | intros by_profile].
  apply within_for_each; [apply _|]. intros s. apply live_shrinks_rm_snap.
Qed.

(** X12. Whatever the listings are and however it ends, live-side
    expiration of an image leaves the backup cluster and every other
    live image as they are; of the image itself it only removes
    snapshots. *)
Theorem expire_item_frame cluster item w :
  let rbd := (Backup.target cluster item).2 in
  let w' := snd (Backup._expire_item cluster item w) in
  backup w' = backup w ∧
  (∀ other, other ≠ rbd → live w' !! other = live w !! other) ∧
  (∀ left, live w' !! rbd = Some left → ∃ snaps, live w !! rbd = Some snaps ∧ left ⊆ snaps).
Proof.
  intros rbd w'. destruct (live_shrinks_expire_item cluster item w) as (Hb & _ & Ho & Hi).
  by repeat split.
Qed.







End LiveExpiryMoreFacts.


(** ** More on the freshness check, the reporter and the locks *)

Section CheckMoreFacts.
Context `{Env}.

Lemma logs_only_log e : within logs_only (Log e).
Proof. intros w. by repeat split. Qed.

Lemma logs_only_check_img rbd bck : within logs_only (Check.check_img rbd bck).
Proof.
  unfold Check.check_img. apply within_try; [apply _ | |].
  - apply within_bind; [apply _ | by intros w | intros there].
    destruct (negb there); [by apply within_ret; apply _|].
    apply within_bind; [apply _ | | intros last].
    { unfold Driver.get_last_shared_snap.
      apply within_bind; [apply _ | | intros live_snaps].
      { intros w. unfold Driver.snap. case_match; simpl; reflexivity. }
      apply within_bind; [apply _ | | intros backup_snaps].
      { intros w. unfold Driver.backup_snap. case_match; simpl; reflexivity. }
      by apply within_ret; apply _. }
    destruct last as [last|]; [|by apply within_ret; apply _].
    repeat (apply within_bind; [apply _ | by apply within_lift; apply _ | intros ?]).
    apply within_bind; [apply _ | by apply within_now; apply _ | intros ?].
    repeat (apply within_bind; [apply _ | by apply within_lift; apply _ | intros ?]).
    case_match; by apply within_ret; apply _.
  - intros e. apply within_bind; [apply _ | apply logs_only_log | intros _].
    by apply within_ret; apply _.
Qed.

Lemma check_img_names_image rbd bck w f :
  fst (Check.check_img rbd bck w) = Ok (Some f) → image f = rbd.
Proof.
  unfold Check.check_img, try_except, bind, lift, ret, now, Log,
    Driver.backup_exists, Driver.get_last_shared_snap, Driver.snap, Driver.backup_snap.
  repeat case_match; simplify_eq/=; intros; simplify_eq/=; done.
Qed.

(** X14. [check_img] never raises and writes to the log only: an
    exception met on the way (an image the driver cannot list, a name
    without a timestamp, a timestamp that cannot be read or compared)
    is caught there. A record it returns is about the image asked
    for. *)
Theorem check_img_only_logs rbd bck w :
  ∃ m w', Check.check_img rbd bck w = (Ok m, w') ∧
    logs_only w w' ∧
    (∀ f, m = Some f → image f = rbd).
Proof.
  pose proof (logs_only_check_img rbd bck w) as Hlog.
  pose proof (check_img_names_image rbd bck w) as Himg.
  assert (Hret : returns (Check.check_img rbd bck)).
  { unfold Check.check_img. apply returns_try. intros e.
    apply returns_bind; [apply returns_Log | intros _; apply returns_ret]. }
  destruct (Hret w) as [m Hm].
  destruct (Check.check_img rbd bck w) as [r w']. simpl in *. subst r.
  exists m, w'. split; [done|]. split; [done|]. intros f ->. by apply Himg.
Qed.



(** X16. What the reporter shows: after any messages, [total] has
    grown by the number of [add_item] received and the number shown as
    done by the number of [done_item] received, in whatever order they
    came. *)
Theorem work_counts c msgs :
  Real_updater.total (Real_updater.__work__ c msgs)
  = Real_updater.total c + Z.of_nat (length (filter (λ m, m = add_item) msgs)) ∧
  Real_updater.done (Real_updater.__work__ c msgs)
  = Real_updater.done c + Z.of_nat (length (filter (λ m, m = done_item) msgs)).
Proof.
  unfold Real_updater.__work__. revert c.
  induction msgs as [|m msgs IH]; intros c; simpl.
  - split; lia.
  - destruct (IH (Real_updater.receive c m)) as [Ht Hd]. rewrite Ht, Hd.
    rewrite !filter_cons. unfold Real_updater.done.
    destruct m; simpl; repeat case_decide; simplify_eq; simpl; split; lia.
Qed.

Lemma split_not_nil c s : split c s ≠ [].
Proof. destruct s as [|a s]; simpl; [done|]. case_decide; [done|]. by destruct (split c s). Qed.

Lemma split_remove_char c s : split c (remove_char c s) = [remove_char c s].
Proof.
  induction s as [|a s IH]; simpl; [done|].
  case_decide; [done|]. simpl. rewrite decide_False by done. by rewrite IH.
Qed.

Lemma remove_char_absent c s : split c s = [s] → remove_char c s = s.
Proof.
  induction s as [|a s IH]; simpl; [done|].
  case_decide.
  - intros Habs. by injection Habs.
  - destruct (split c s) as [|x xs] eqn:Hs; [by apply split_not_nil in Hs|].
    intros [= -> ->]. by rewrite IH.
Qed.

(** X17. The lock file of a path lies directly in the lock directory:
    what follows the directory holds no slash, and is the path itself
    when the path has none. *)
Theorem lock_path_flat path :
  ∃ name,
    Lock.lock_path path = lockdir config +:+ "/" +:+ name ∧
    split slash name = [name] ∧
    (split slash path = [path] → name = path).
Proof.
  exists (remove_char slash path). split; [done|]. split.
  - apply split_remove_char.
  - apply remove_char_absent.
Qed.

End CheckMoreFacts.

